(** * index_documents: chunking, normalisation and the indexing pipeline

    A shallow embedding of [index_documents.py].  Python strings are
    sequences of Unicode code points, Python integers are unbounded, and
    exceptions are values of an error type threaded through a small
    state-and-error monad. *)

From Stdlib Require Import List ZArith NArith Lia Bool String Ascii Sorted.
Import ListNotations.

Local Open Scope Z_scope.

(** ** Python values *)

(** A [str] is a sequence of code points. *)
Definition char := N.
Definition str := list char.

(** String literals of the source, all ASCII. *)
Definition lit (s : string) : str := map N_of_ascii (list_ascii_of_string s).

(** The exceptions the module raises itself, with the message given at the
    raise site, and those that come out of the libraries it calls. *)
Inductive exn :=
| ValueError (msg : string)
| RuntimeError (msg : string)
| LibraryError (origin : string).

Inductive result (A : Type) :=
| Ok (a : A)
| Raise (e : exn).
Arguments Ok {A} a.
Arguments Raise {A} e.

(** The error taxonomy, by raise site. *)
Definition UnsupportedFormat : exn :=
  ValueError "Unsupported file type. Please provide a PDF or DOCX file.".
Definition InvalidConfiguration : exn :=
  ValueError "CHUNK_OVERLAP must be smaller than CHUNK_SIZE".
Definition MissingCredential : exn :=
  RuntimeError "Missing GEMINI_API_KEY env var. Set it before running.".
Definition LengthMismatch : exn :=
  ValueError "Chunks and embeddings length mismatch.".
Definition RangeStepZero : exn :=
  ValueError "range() arg 3 must not be zero".

(** Configuration constants. *)
Definition SPLIT_STRATEGY : string := "fixed_overlap".
Definition CHUNK_SIZE : Z := 1000.
Definition CHUNK_OVERLAP : Z := 200.

(** ** Built-in string operations *)

(** [str.isspace] on one code point: the white-space table that [split()]
    and [strip()] without arguments share. *)
Definition isspace (c : char) : bool :=
  (((9 <=? c) && (c <=? 13)) || ((28 <=? c) && (c <=? 32))
   || (c =? 133) || (c =? 160) || (c =? 5760)
   || ((8192 <=? c) && (c <=? 8202))
   || (c =? 8232) || (c =? 8233) || (c =? 8239) || (c =? 8287)
   || (c =? 12288))%N.

(** Truthiness of a string: [if s] / [if not s]. *)
Definition truthy (s : str) : bool :=
  match s with [] => false | _ :: _ => true end.

Definition push_word (w : str) (ws : list str) : list str :=
  if truthy w then w :: ws else ws.

(** [split_words s] scans [s] and returns the word that is open at the front
    of [s] together with the words completed behind it. *)
Fixpoint split_words (s : str) : str * list str :=
  match s with
  | [] => ([], [])
  | c :: s' =>
      let '(w, ws) := split_words s' in
      if isspace c then ([], push_word w ws) else (c :: w, ws)
  end.

(** [s.split()]: the maximal runs of non-white-space characters, in order. *)
Definition split (s : str) : list str :=
  let '(w, ws) := split_words s in push_word w ws.

(** [sep.join(parts)]. *)
Fixpoint join (sep : str) (parts : list str) : str :=
  match parts with
  | [] => []
  | p :: ps =>
      match ps with
      | [] => p
      | _ :: _ => p ++ sep ++ join sep ps
      end
  end.

Fixpoint lstrip (s : str) : str :=
  match s with
  | [] => []
  | c :: s' => if isspace c then lstrip s' else s
  end.

Definition rstrip (s : str) : str := rev (lstrip (rev s)).

(** [s.strip()]. *)
Definition strip (s : str) : str := rstrip (lstrip s).

(** [len(s)]. *)
Definition len (s : str) : Z := Z.of_nat (List.length s).

(** Index adjustment of a slice bound: a negative bound counts from the end,
    and every bound is clamped to [0, len]. *)
Definition adjust_index (n i : Z) : Z :=
  if i <? 0 then Z.max 0 (i + n) else Z.min i n.

(** [s[lo:hi]]. *)
Definition slice (s : str) (lo hi : Z) : str :=
  let a := adjust_index (len s) lo in
  let b := adjust_index (len s) hi in
  firstn (Z.to_nat (b - a)) (skipn (Z.to_nat a) s).

(** Number of items of [range(start, stop, step)] for a non-zero step. *)
Definition range_length (start stop step : Z) : Z :=
  let '(lo, hi, st) :=
    if 0 <? step then (start, stop, step) else (stop, start, - step) in
  if hi <=? lo then 0 else (hi - lo - 1) / st + 1.

(** [range(start, stop, step)], as the list of its items. *)
Definition range (start stop step : Z) : result (list Z) :=
  if step =? 0 then Raise RangeStepZero
  else Ok (map (fun i => start + Z.of_nat i * step)
               (seq 0 (Z.to_nat (range_length start stop step)))).

(** ** The normaliser and the chunker *)

Definition normalize_whitespace (text : str) : str :=
  join (lit " ") (split text).

(** The body of the [for] loop: one window, trimmed, appended when it is
    not empty. *)
Definition chunk_step (text : str) (chunk_size : Z)
    (chunks : list str) (start : Z) : list str :=
  let chunk := strip (slice text start (start + chunk_size)) in
  if truthy chunk then chunks ++ [chunk] else chunks.

Definition split_fixed_overlap (text : str) (chunk_size overlap : Z)
  : result (list str) :=
  if overlap >=? chunk_size then Raise InvalidConfiguration
  else
    let text := normalize_whitespace text in
    if negb (truthy text) then Ok []
    else
      let step := chunk_size - overlap in
      match range 0 (len text) step with
      | Raise e => Raise e
      | Ok starts => Ok (fold_left (chunk_step text chunk_size) starts [])
      end.

(** ** More built-ins: [lower], [endswith], [os.path.basename] *)

Definition ascii_lower (c : char) : char :=
  if ((65 <=? c) && (c <=? 90))%N then (c + 32)%N else c.

Fixpoint str_eqb (a b : str) : bool :=
  match a, b with
  | [], [] => true
  | x :: a', y :: b' => (x =? y)%N && str_eqb a' b'
  | _, _ => false
  end.

(** [s.endswith(suffix)]. *)
Definition endswith (s suffix : str) : bool :=
  let n := List.length s in
  let m := List.length suffix in
  (m <=? n)%nat && str_eqb (skipn (n - m) s) suffix.

(** [os.path.basename] on a POSIX path: what follows the last slash. *)
Fixpoint basename (path : str) : str :=
  match path with
  | [] => []
  | c :: rest =>
      if existsb (N.eqb 47) rest then basename rest
      else if (c =? 47)%N then rest else path
  end.

(** ** The pipeline and its environment *)

Section Pipeline.

(** The component type of an embedding vector; the module never computes
    with it. *)
Variable float : Type.

(** What lies outside the module: the lower-case mapping of the Unicode
    database beyond ASCII (which may look at the characters around it), the
    two document parsers, the embedding service, the process environment,
    the database server, and the sources of identifiers and time.  A parser,
    service or database call that fails answers [None]. *)
Record env := {
  unicode_lower : str -> char -> str -> str;
  PdfReader : str -> option (list (option str));
  Document : str -> option (list str);
  GEMINI_API_KEY : option str;
  embed_content : str -> option (list float);
  db_reachable : bool;
  uuid4 : N -> str;
}.

(** A row of [document_chunks]. *)
Record row := {
  row_id : str;
  chunk_text : str;
  embedding : list float;
  filename : str;
  split_strategy : string;
  created_at : Z;
}.

Inductive message :=
| NothingToIndex
| Extracted (chars chunks : Z)
| Created (count dims : Z)
| Inserted.

(** What a run does that can be observed from outside. *)
Inductive event :=
| Called (stage : string)
| Parsed (path : str)
| EmbedRequest (content : str)
| Connected
| Executed (rows : list row)
| Committed
| Printed (msg : message).

Record world := {
  events : list event;
  table : list row;
  uuids_drawn : N;
  clock : Z;
}.

(** State and exceptions: a raise keeps the state reached so far. *)
Definition M (A : Type) : Type := world -> result A * world.

Definition ret {A} (a : A) : M A := fun w => (Ok a, w).
Definition raise {A} (e : exn) : M A := fun w => (Raise e, w).
Definition bind {A B} (m : M A) (k : A -> M B) : M B :=
  fun w =>
    match m w with
    | (Ok a, w') => k a w'
    | (Raise e, w') => (Raise e, w')
    end.
Definition lift {A} (r : result A) : M A := fun w => (r, w).

Notation "x <- m ;; k" := (bind m (fun x => k))
  (at level 61, m at next level, right associativity).
Notation "m ;;; k" := (bind m (fun _ => k))
  (at level 61, right associativity).

Definition emit (e : event) : M unit :=
  fun w => (Ok tt, {| events := events w ++ [e]; table := table w;
                      uuids_drawn := uuids_drawn w; clock := clock w |}).

Definition library {A} (origin : string) (o : option A) : M A :=
  match o with
  | Some a => ret a
  | None => raise (LibraryError origin)
  end.

Fixpoint mapM {A B} (f : A -> M B) (l : list A) : M (list B) :=
  match l with
  | [] => ret []
  | a :: l' => b <- f a ;; bs <- mapM f l' ;; ret (b :: bs)
  end.

Variable E : env.

(** [s.lower()]: ASCII letters by the ASCII rule, every other code point by
    the environment's table, given the characters before and after it. *)
Definition lower_char (before : str) (c : char) (after : str) : str :=
  if (c <? 128)%N then [ascii_lower c] else unicode_lower E before c after.

Fixpoint lower_from (before s : str) : str :=
  match s with
  | [] => []
  | c :: after => lower_char before c after ++ lower_from (c :: before) after
  end.

Definition lower (s : str) : str := lower_from [] s.

Definition or_empty (o : option str) : str :=
  match o with
  | Some s => if truthy s then s else []
  | None => []
  end.

Definition read_pdf (path : str) : M str :=
  emit (Parsed path) ;;;
  pages <- library "pypdf" (PdfReader E path) ;;
  ret (strip (join (lit (String (ascii_of_nat 10) EmptyString))
                   (map or_empty pages))).

Definition read_docx (path : str) : M str :=
  emit (Parsed path) ;;;
  paragraphs <- library "docx" (Document E path) ;;
  ret (strip (join (lit (String (ascii_of_nat 10) EmptyString)) paragraphs)).

Definition load_text (path : str) : M str :=
  let p := lower path in
  if endswith p (lit ".pdf") then read_pdf path
  else if endswith p (lit ".docx") then read_docx path
  else raise UnsupportedFormat.

Definition embed_texts (texts : list str) : M (list (list float)) :=
  if negb (truthy (or_empty (GEMINI_API_KEY E))) then raise MissingCredential
  else
    mapM (fun t =>
            emit (EmbedRequest t) ;;;
            library "google.generativeai" (embed_content E t)) texts.

Definition db_connect : M unit :=
  if db_reachable E then emit Connected
  else raise (LibraryError "psycopg2").

Definition utcnow : M Z := fun w => (Ok (clock w), w).

Definition fresh_uuid : M str :=
  fun w => (Ok (uuid4 E (uuids_drawn w)),
            {| events := events w; table := table w;
               uuids_drawn := N.succ (uuids_drawn w); clock := clock w |}).

Definition execute_values (rows : list row) : M unit :=
  emit (Executed rows).

Definition commit (rows : list row) : M unit :=
  fun w => (Ok tt, {| events := events w ++ [Committed];
                      table := table w ++ rows;
                      uuids_drawn := uuids_drawn w; clock := clock w |}).

(** One element of the list comprehension that builds the rows. *)
Definition new_row (file : str) (now : Z) (pair : str * list float) : M row :=
  let '(text, emb) := pair in
  id <- fresh_uuid ;;
  ret {| row_id := id; chunk_text := text; embedding := emb;
         filename := file; split_strategy := SPLIT_STRATEGY;
         created_at := now |}.

Definition insert_chunks (file : str) (chunks : list str)
    (embeddings : list (list float)) : M unit :=
  if negb (List.length chunks =? List.length embeddings)%nat
  then raise LengthMismatch
  else
    now <- utcnow ;;
    rows <- mapM (new_row file now) (combine chunks embeddings) ;;
    db_connect ;;;
    execute_values rows ;;;
    commit rows.

(** [main], after the command line is parsed; each stage it enters is
    recorded. *)
Definition main (path : str) : M unit :=
  let file := basename path in
  emit (Called "load_text") ;;;
  text <- load_text path ;;
  if negb (truthy text) then emit (Printed NothingToIndex)
  else
    emit (Called "split_fixed_overlap") ;;;
    chunks <- lift (split_fixed_overlap text CHUNK_SIZE CHUNK_OVERLAP) ;;
    emit (Printed (Extracted (len text) (Z.of_nat (List.length chunks)))) ;;;
    emit (Called "embed_texts") ;;;
    embeddings <- embed_texts chunks ;;
    let dims := match embeddings with
                | [] => 0
                | v :: _ => Z.of_nat (List.length v)
                end in
    emit (Printed (Created (Z.of_nat (List.length embeddings)) dims)) ;;;
    emit (Called "insert_chunks") ;;;
    insert_chunks file chunks embeddings ;;;
    emit (Printed Inserted).

End Pipeline.

Arguments Called {float} stage.
Arguments Parsed {float} path.
Arguments EmbedRequest {float} content.
Arguments Connected {float}.
Arguments Executed {float} rows.
Arguments Committed {float}.
Arguments Printed {float} msg.
Arguments unicode_lower {float} e before c after.
Arguments PdfReader {float} e path.
Arguments Document {float} e path.
Arguments GEMINI_API_KEY {float} e.
Arguments embed_content {float} e content.
Arguments db_reachable {float} e.
Arguments uuid4 {float} e n.
Arguments events {float} w.
Arguments table {float} w.
Arguments uuids_drawn {float} w.
Arguments clock {float} w.
Arguments ret {float A} a w.
Arguments raise {float A} e w.
Arguments bind {float A B} m k w.
Arguments lift {float A} r w.
Arguments emit {float} e w.
Arguments library {float A} origin o.
Arguments mapM {float A B} f l.
Arguments lower_char {float} E before c after.
Arguments lower_from {float} E before s.
Arguments lower {float} E s.
Arguments read_pdf {float} E path.
Arguments read_docx {float} E path.
Arguments load_text {float} E path.
Arguments embed_texts {float} E texts.
Arguments db_connect {float} E.
Arguments utcnow {float} w.
Arguments fresh_uuid {float} E w.
Arguments execute_values {float} rows.
Arguments commit {float} rows w.
Arguments new_row {float} E file now pair.
Arguments insert_chunks {float} E file chunks embeddings.
Arguments main {float} E path.

(** ** Vocabulary of the statements *)

(** All white space; no white space. *)
Definition blank (s : str) : Prop := Forall (fun c => isspace c = true) s.
Definition solid (s : str) : Prop := Forall (fun c => isspace c = false) s.

(** A string that [strip] leaves alone. *)
Definition trimmed (s : str) : Prop := lstrip s = s /\ rstrip s = s.

(** What [split] returns: non-empty runs without white space. *)
Definition word (w : str) : Prop := w <> [] /\ solid w.

Definition space : str := lit " ".

(** No two white-space characters in a row. *)
Fixpoint single_spaced (s : str) : bool :=
  match s with
  | [] => true
  | c :: s' =>
      match s' with
      | [] => true
      | c' :: _ => negb (isspace c && isspace c') && single_spaced s'
      end
  end.

(** Every maximal run of white space becomes one ASCII space. *)
Fixpoint collapse_runs (s : str) : str :=
  match s with
  | [] => []
  | c :: s' =>
      if isspace c then
        match s' with
        | [] => [32%N]
        | c' :: _ => if isspace c' then collapse_runs s'
                     else 32%N :: collapse_runs s'
        end
      else c :: collapse_runs s'
  end.

(** The words after the first, each behind its separator. *)
Definition tail_words (ws : list str) : str :=
  match ws with
  | [] => []
  | _ :: _ => 32%N :: join space ws
  end.

(** The first [count] multiples of [step], as [range] from 0 lists them. *)
Definition multiples (step : Z) (count : nat) : list Z :=
  map (fun i => 0 + Z.of_nat i * step) (seq 0 count).

(** The characters from [off] on, at most [size] of them. *)
Definition window (text : str) (size off : Z) : str :=
  firstn (Z.to_nat size) (skipn (Z.to_nat off) text).

Definition starts_with_space (s : str) : bool :=
  match s with
  | [] => false
  | c :: _ => isspace c
  end.

Definition ends_with_space (s : str) : bool := starts_with_space (rev s).

(** The chunker as the specification words it: the offsets are the multiples
    of the step below the length of the normalised text, in increasing
    order; each gives the substring of up to [S] characters from it,
    trimmed; the empty ones are dropped. *)
Definition chunks_as_described (T : str) (S O : Z) : Prop :=
  let text := normalize_whitespace T in
  let step := S - O in
  exists offsets : list Z,
    StronglySorted Z.lt offsets
    /\ (forall z, In z offsets <->
                  exists k, 0 <= k /\ z = k * step /\ z < len text)
    /\ split_fixed_overlap T S O
       = Ok (filter truthy
               (map (fun off => strip (window text S off)) offsets)).

(** Coverage as the specification words it: when no window trims to empty,
    every position of the normalised text lies in the span of a window whose
    chunk is returned. *)
Definition covered_as_described (T : str) (S O : Z) : Prop :=
  let text := normalize_whitespace T in
  exists starts chunks,
    range 0 (len text) (S - O) = Ok starts
    /\ split_fixed_overlap T S O = Ok chunks
    /\ ((forall st, In st starts -> strip (slice text st (st + S)) <> []) ->
        forall p, 0 <= p < len text ->
          exists st, In st starts /\ st <= p < st + S
                     /\ In (strip (slice text st (st + S))) chunks).

(** The second worked example as the specification words it. *)
Definition scenario_1500_as_specified (T : str) : Prop :=
  normalize_whitespace T = T -> List.length T = 1500%nat ->
  exists c1 c2,
    split_fixed_overlap T CHUNK_SIZE CHUNK_OVERLAP = Ok [c1; c2]
    /\ len c2 = 700.

(** A normalised text of 1500 characters with a space at offset 800. *)
Definition space_at_800 : str :=
  repeat 97%N 800 ++ [32%N] ++ repeat 97%N 699.

(** What every returned chunk is: non-empty, at most [S] long, without
    white space at either end, the trimming of a piece of the normalised
    text. *)
Definition chunk_well_formed (T : str) (S : Z) (c : str) : Prop :=
  c <> []
  /\ len c <= S
  /\ starts_with_space c = false
  /\ ends_with_space c = false
  /\ exists pre w post,
       normalize_whitespace T = pre ++ w ++ post /\ c = strip w.

Definition chunk_invariants (T : str) (S O : Z) : Prop :=
  exists chunks,
    split_fixed_overlap T S O = Ok chunks
    /\ Forall (chunk_well_formed T S) chunks
    /\ ((exists c, In c T /\ isspace c = false) -> chunks <> []).

(** An environment with nothing behind it: no parser, no credential, no
    service, no database. *)
Definition offline_env : env unit := {|
  unicode_lower := fun _ c _ =>
    if (c =? 8490)%N then [107%N]
    else if (c =? 304)%N then [105%N; 775%N] else [c];
  PdfReader := fun _ => None;
  Document := fun _ => None;
  GEMINI_API_KEY := None;
  embed_content := fun _ => None;
  db_reachable := false;
  uuid4 := fun n => [n];
|}.

Definition empty_world : world unit :=
  {| events := []; table := []; uuids_drawn := 0%N; clock := 0 |}.

(** An environment where everything answers: a three-page document whose
    second page has no text, a key, a service that answers with the length
    of its input, a database. *)
Definition demo_env : env Z := {|
  unicode_lower := fun _ c _ => [c];
  PdfReader := fun _ =>
    Some [Some (lit "first  page "); None; Some (lit "second")];
  Document := fun _ => Some [lit "one"; lit "two"];
  GEMINI_API_KEY := Some (lit "key");
  embed_content := fun t => Some [len t];
  db_reachable := true;
  uuid4 := fun n => [n];
|}.

(** As [demo_env], but the service fails on texts longer than two
    characters. *)
Definition flaky_env : env Z := {|
  unicode_lower := fun _ c _ => [c];
  PdfReader := fun _ =>
    Some [Some (lit "first  page "); None; Some (lit "second")];
  Document := fun _ => Some [lit "one"; lit "two"];
  GEMINI_API_KEY := Some (lit "key");
  embed_content := fun t => if len t <=? 2 then Some [len t] else None;
  db_reachable := true;
  uuid4 := fun n => [n];
|}.

(** As [demo_env], but the documents hold no text: scanned pages, empty
    paragraphs. *)
Definition scanned_env : env Z := {|
  unicode_lower := fun _ c _ => [c];
  PdfReader := fun _ => Some [None; Some (lit "  "); Some []];
  Document := fun _ => Some [[]; [9%N]];
  GEMINI_API_KEY := Some (lit "key");
  embed_content := fun t => Some [len t];
  db_reachable := true;
  uuid4 := fun n => [n];
|}.

Definition demo_world : world Z :=
  {| events := []; table := []; uuids_drawn := 7%N; clock := 42 |}.

Definition has_dot (s : str) : bool := existsb (N.eqb 46) s.

(** The extension of a path: from its last dot on, empty without a dot. *)
Fixpoint extension (path : str) : str :=
  match path with
  | [] => []
  | c :: rest =>
      if has_dot rest then extension rest
      else if (c =? 46)%N then path else []
  end.

(** The extension compared with [ext], letter case ignored. *)
Definition extension_is (path ext : str) : bool :=
  str_eqb (map ascii_lower (extension path)) ext.

(** ASCII characters that only ASCII lowers to: all of them but [i] and
    [k], which U+0130 and U+212A also produce. *)
Definition rigid (c : char) : bool :=
  ((c <? 128) && negb (c =? 105) && negb (c =? 107))%N.

(** What the lower-case table of the Unicode database guarantees beyond
    ASCII: a mapping is never empty, and the only ASCII characters it
    produces are [i] and [k]. *)
Definition lower_table_sound {float : Type} (E : env float) : Prop :=
  forall before c after, (128 <= c)%N ->
    unicode_lower E before c after <> []
    /\ forallb (fun d => negb (rigid d)) (unicode_lower E before c after) = true.

(** The shape of a lowered string, whatever the context did. *)
Inductive lowered : str -> str -> Prop :=
| lowered_nil : lowered [] []
| lowered_ascii (c : char) (s out : str) :
    (c < 128)%N -> lowered s out -> lowered (c :: s) (ascii_lower c :: out)
| lowered_other (c : char) (s ys out : str) :
    (128 <= c)%N -> ys <> [] -> forallb (fun d => negb (rigid d)) ys = true ->
    lowered s out -> lowered (c :: s) (ys ++ out).

(** ** Vocabulary of the further properties *)

(** The characters of a string that are not white space, in order. *)
Definition non_space (s : str) : str :=
  filter (fun c => negb (isspace c)) s.

(** No white space but the ASCII space. *)
Definition only_ascii_space (s : str) : Prop :=
  Forall (fun c => isspace c = true -> c = 32%N) s.

(** [ceil(a / b)] for a positive [b]. *)
Definition ceil_div (a b : Z) : Z := (a + b - 1) / b.

(** A world after more events, nothing else touched. *)
Definition with_events {float : Type} (w : world float)
    (es : list (event float)) : world float :=
  {| events := events w ++ es; table := table w;
     uuids_drawn := uuids_drawn w; clock := clock w |}.


(** An API key is configured: present and not empty. *)
Definition key_set {float : Type} (E : env float) : Prop :=
  exists k, GEMINI_API_KEY E = Some k /\ k <> [].


(** * Examples *)

Example scenario_abcdefghij :
  split_fixed_overlap (lit "abcdefghij") 4 1
  = Ok [lit "abcd"; lit "defg"; lit "ghij"; lit "j"].
Proof. reflexivity. Qed.

Example negative_size :
  split_fixed_overlap (lit "abc") (-1) (-2) = Ok [lit "ab"].
Proof. reflexivity. Qed.

Example normalize_example :
  normalize_whitespace (lit "  a   b c  ") = lit "a b c".
Proof. reflexivity. Qed.

Example normalize_unicode_space :
  normalize_whitespace [32; 9; 97; 8232; 160; 98; 10]%N = lit "a b".
Proof. reflexivity. Qed.

Example slice_examples :
  slice (lit "abcdef") 1 (-2) = lit "bcd"
  /\ slice (lit "abcdef") (-3) 100 = lit "def"
  /\ slice (lit "abcdef") 4 2 = [].
Proof. repeat split. Qed.

Example range_examples :
  range 0 10 3 = Ok [0; 3; 6; 9]
  /\ range 10 0 (-4) = Ok [10; 6; 2]
  /\ range 0 5 0 = Raise RangeStepZero.
Proof. repeat split. Qed.

Example lower_examples :
  lower offline_env [65; 8490; 304; 90]%N = [97; 107; 105; 775; 122]%N
  /\ basename (lit "a/b/c.pdf") = lit "c.pdf"
  /\ extension (lit "a.b/c.tar.PDF") = lit ".PDF".
Proof. repeat split. Qed.

Example main_indexes_pdf :
  fst (main demo_env (lit "Report.PDF") demo_world) = Ok tt
  /\ map (fun r => (row_id _ r, chunk_text _ r, embedding _ r, created_at _ r))
         (table (snd (main demo_env (lit "Report.PDF") demo_world)))
     = [([7%N], lit "first page second", [17], 42)].
Proof. split; reflexivity. Qed.

Example main_parser_failure :
  fst (main offline_env (lit "a.DocX") empty_world) = Raise (LibraryError "docx").
Proof. reflexivity. Qed.

(** * Facts about the built-ins *)

Lemma truthy_false (s : str) : truthy s = false <-> s = [].
Proof. destruct s; simpl; split; congruence. Qed.

Lemma truthy_true (s : str) : truthy s = true <-> s <> [].
Proof. destruct s; simpl; split; congruence. Qed.

Lemma lstrip_length (s : str) : (List.length (lstrip s) <= List.length s)%nat.
Proof.
  induction s as [|c s IH]; simpl; [lia|].
  destruct (isspace c); simpl; lia.
Qed.

Lemma lstrip_blank (s : str) : blank s -> lstrip s = [].
Proof.
  induction 1 as [|c s Hc _ IH]; simpl; [reflexivity|].
  now rewrite Hc.
Qed.

Lemma lstrip_nil_blank (s : str) : lstrip s = [] -> blank s.
Proof.
  induction s as [|c s IH]; simpl; intros H; [constructor|].
  destruct (isspace c) eqn:Hc; [|discriminate].
  constructor; [exact Hc|exact (IH H)].
Qed.

Lemma lstrip_blank_app (pre x : str) : blank pre -> lstrip (pre ++ x) = lstrip x.
Proof.
  induction 1 as [|c s Hc _ IH]; simpl; [reflexivity|].
  now rewrite Hc.
Qed.

Lemma lstrip_decomp (s : str) : exists pre, blank pre /\ s = pre ++ lstrip s.
Proof.
  induction s as [|c s [pre [Hb Hs]]]; simpl.
  - exists []. split; [constructor|reflexivity].
  - destruct (isspace c) eqn:Hc.
    + exists (c :: pre). split; [now constructor|]. simpl. now f_equal.
    + exists []. split; [constructor|reflexivity].
Qed.

Lemma lstrip_head (s r : str) (c : char) : lstrip s = c :: r -> isspace c = false.
Proof.
  induction s as [|d s IH]; simpl; [discriminate|].
  destruct (isspace d) eqn:Hd; [exact IH|].
  intros H; injection H as <- _. exact Hd.
Qed.

Lemma lstrip_solid_head (c : char) (r : str) :
  isspace c = false -> lstrip (c :: r) = c :: r.
Proof. intros H; simpl; now rewrite H. Qed.

Lemma lstrip_fixed_head (c : char) (r : str) :
  lstrip (c :: r) = c :: r -> isspace c = false.
Proof. apply lstrip_head. Qed.

Lemma lstrip_idem (s : str) : lstrip (lstrip s) = lstrip s.
Proof.
  destruct (lstrip s) as [|c r] eqn:H; [reflexivity|].
  apply lstrip_solid_head. eapply lstrip_head; eauto.
Qed.

Lemma lstrip_app (x z : str) :
  lstrip (x ++ z) = if truthy (lstrip x) then lstrip x ++ z else lstrip z.
Proof.
  induction x as [|c x IH]; simpl; [reflexivity|].
  destruct (isspace c); [exact IH|reflexivity].
Qed.

Lemma rev_blank (s : str) : blank s -> blank (rev s).
Proof. unfold blank. intros H. now apply Forall_rev. Qed.

Lemma lstrip_rev (s : str) : lstrip (rev s) = rev (rstrip s).
Proof. unfold rstrip. now rewrite rev_involutive. Qed.

Lemma rstrip_rev (s : str) : rstrip (rev s) = rev (lstrip s).
Proof. unfold rstrip. now rewrite rev_involutive. Qed.

Lemma rstrip_length (s : str) : (List.length (rstrip s) <= List.length s)%nat.
Proof.
  unfold rstrip. rewrite length_rev.
  etransitivity; [apply lstrip_length|]. now rewrite length_rev.
Qed.

Lemma rstrip_blank (s : str) : blank s -> rstrip s = [].
Proof.
  intros H. unfold rstrip. now rewrite lstrip_blank by now apply rev_blank.
Qed.

Lemma rstrip_app_blank (x post : str) : blank post -> rstrip (x ++ post) = rstrip x.
Proof.
  intros H. unfold rstrip. rewrite rev_app_distr.
  now rewrite lstrip_blank_app by now apply rev_blank.
Qed.

Lemma rstrip_decomp (s : str) : exists post, blank post /\ s = rstrip s ++ post.
Proof.
  destruct (lstrip_decomp (rev s)) as [pre [Hb Hs]].
  exists (rev pre). split; [now apply rev_blank|].
  unfold rstrip. rewrite <- rev_app_distr, <- Hs. now rewrite rev_involutive.
Qed.

Lemma rstrip_idem (s : str) : rstrip (rstrip s) = rstrip s.
Proof. unfold rstrip. now rewrite rev_involutive, lstrip_idem. Qed.

Lemma rstrip_app (x z : str) :
  rstrip (x ++ z) = if truthy (rstrip z) then x ++ rstrip z else rstrip x.
Proof.
  unfold rstrip. rewrite rev_app_distr, lstrip_app.
  destruct (lstrip (rev z)) as [|c r]; [reflexivity|].
  cbn [truthy]. rewrite rev_app_distr, rev_involutive.
  assert (H : truthy (rev (c :: r)) = true).
  { apply truthy_true. simpl. now destruct (rev r). }
  now rewrite H.
Qed.

Lemma rstrip_last (s r : str) (c : char) : rstrip s = r ++ [c] -> isspace c = false.
Proof.
  unfold rstrip. intros H.
  apply (f_equal (@rev char)) in H. rewrite rev_involutive, rev_app_distr in H.
  simpl in H. eapply lstrip_head; eauto.
Qed.

Lemma rstrip_solid_last (r : str) (c : char) :
  isspace c = false -> rstrip (r ++ [c]) = r ++ [c].
Proof.
  intros H. unfold rstrip. rewrite rev_app_distr. simpl. rewrite H.
  simpl. now rewrite rev_involutive.
Qed.

Lemma lstrip_rstrip_fixed (m : str) : lstrip m = m -> lstrip (rstrip m) = rstrip m.
Proof.
  intros Hm. destruct (rstrip_decomp m) as [post [_ Hpost]].
  destruct (rstrip m) as [|c r] eqn:Hr; [reflexivity|].
  apply lstrip_solid_head. rewrite Hpost in Hm. simpl in Hm.
  now apply lstrip_fixed_head in Hm.
Qed.

Lemma strip_trimmed (s : str) : trimmed (strip s).
Proof.
  unfold trimmed, strip. split.
  - apply lstrip_rstrip_fixed, lstrip_idem.
  - apply rstrip_idem.
Qed.

Lemma trimmed_nil : trimmed [].
Proof. split; reflexivity. Qed.

Lemma trimmed_head (c : char) (r : str) : trimmed (c :: r) -> isspace c = false.
Proof. intros [H _]. now apply lstrip_fixed_head in H. Qed.

Lemma trimmed_last (r : str) (c : char) : trimmed (r ++ [c]) -> isspace c = false.
Proof. intros [_ H]. eapply rstrip_last; eauto. Qed.

Lemma trimmed_intro (c d : char) (r m : str) :
  m = c :: r -> (exists r', m = r' ++ [d]) ->
  isspace c = false -> isspace d = false -> trimmed m.
Proof.
  intros Hc [r' Hd] Sc Sd. split.
  - subst m. now apply lstrip_solid_head.
  - rewrite Hd. now apply rstrip_solid_last.
Qed.

Lemma strip_unique (pre m post : str) :
  blank pre -> blank post -> trimmed m -> strip (pre ++ m ++ post) = m.
Proof.
  intros Hpre Hpost [Hl Hr]. unfold strip.
  rewrite lstrip_blank_app by assumption.
  destruct m as [|c r].
  - simpl. now rewrite lstrip_blank.
  - apply lstrip_fixed_head in Hl. change ((c :: r) ++ post) with (c :: (r ++ post)).
    rewrite lstrip_solid_head by assumption.
    change (c :: (r ++ post)) with ((c :: r) ++ post).
    now rewrite rstrip_app_blank.
Qed.

Lemma strip_fixed (m : str) : trimmed m -> strip m = m.
Proof.
  intros H. rewrite <- (app_nil_r m) at 1.
  apply (strip_unique [] m []); auto; constructor.
Qed.

Lemma strip_decomp (s : str) :
  exists pre post, blank pre /\ blank post /\ s = pre ++ strip s ++ post.
Proof.
  destruct (lstrip_decomp s) as [pre [Hpre Hs]].
  destruct (rstrip_decomp (lstrip s)) as [post [Hpost Hl]].
  exists pre, post. repeat split; auto.
  unfold strip. now rewrite <- Hl.
Qed.

Lemma strip_length (s : str) : (List.length (strip s) <= List.length s)%nat.
Proof.
  unfold strip. etransitivity; [apply rstrip_length|apply lstrip_length].
Qed.

Lemma strip_nil_iff (s : str) : strip s = [] <-> blank s.
Proof.
  split.
  - intros H. destruct (strip_decomp s) as [pre [post [Hpre [Hpost Hs]]]].
    rewrite H in Hs. simpl in Hs. rewrite Hs. now apply Forall_app.
  - intros H. unfold strip. now rewrite lstrip_blank.
Qed.

(** ** [split], [join] and the normaliser *)

Lemma space_is_space : space = [32%N] /\ isspace 32%N = true.
Proof. split; reflexivity. Qed.

Lemma join_one (sep p : str) : join sep [p] = p.
Proof. reflexivity. Qed.

Lemma join_more (sep p q : str) (ps : list str) :
  join sep (p :: q :: ps) = p ++ sep ++ join sep (q :: ps).
Proof. reflexivity. Qed.

Lemma split_words_inv (s : str) :
  solid (fst (split_words s)) /\ Forall word (snd (split_words s)).
Proof.
  induction s as [|c s [IHw IHws]]; simpl.
  - split; constructor.
  - destruct (split_words s) as [w ws]; simpl in *.
    destruct (isspace c) eqn:Hc; simpl.
    + split; [constructor|]. unfold push_word.
      destruct w as [|d w]; simpl; [exact IHws|].
      constructor; [|exact IHws]. split; [discriminate|exact IHw].
    + split; [|exact IHws]. now constructor.
Qed.

Lemma split_words_fold (s : str) :
  split s = push_word (fst (split_words s)) (snd (split_words s)).
Proof. unfold split. now destruct (split_words s). Qed.

Lemma split_all_words (s : str) : Forall word (split s).
Proof.
  rewrite split_words_fold. destruct (split_words_inv s) as [Hw Hws].
  unfold push_word. destruct (fst (split_words s)) as [|d w]; simpl; [exact Hws|].
  constructor; [|exact Hws]. split; [discriminate|exact Hw].
Qed.

Lemma split_cons_space (c : char) (s : str) :
  isspace c = true -> split (c :: s) = split s.
Proof.
  intros Hc. unfold split. simpl. destruct (split_words s) as [w ws].
  now rewrite Hc.
Qed.

Lemma split_words_solid_app (u s : str) :
  solid u ->
  split_words (u ++ s) = (u ++ fst (split_words s), snd (split_words s)).
Proof.
  induction 1 as [|c u Hc _ IH]; simpl.
  - now destruct (split_words s).
  - rewrite IH, Hc. reflexivity.
Qed.

Lemma split_word_then_space (u s : str) (c : char) :
  word u -> isspace c = true -> split (u ++ c :: s) = u :: split s.
Proof.
  intros [Hne Hu] Hc. rewrite split_words_fold, split_words_solid_app by assumption.
  simpl. rewrite split_words_fold. destruct (split_words s) as [w ws]. simpl.
  rewrite Hc. simpl. rewrite app_nil_r. unfold push_word at 1.
  destruct u; [congruence|reflexivity].
Qed.

Lemma split_word (u : str) : word u -> split u = [u].
Proof.
  intros [Hne Hu]. rewrite <- (app_nil_r u) at 1.
  rewrite split_words_fold, split_words_solid_app by assumption.
  simpl. rewrite app_nil_r. unfold push_word. destruct u; [congruence|reflexivity].
Qed.

Lemma split_join (ws : list str) : Forall word ws -> split (join space ws) = ws.
Proof.
  induction 1 as [|w ws Hw Hws IH]; [reflexivity|].
  destruct ws as [|w' ws']; [rewrite join_one|rewrite join_more].
  - now apply split_word.
  - change (space ++ join space (w' :: ws')) with (32%N :: join space (w' :: ws')).
    rewrite split_word_then_space by (auto; reflexivity). now rewrite IH.
Qed.

Lemma split_nil_blank (s : str) : split s = [] -> blank s.
Proof.
  induction s as [|c s IH]; [constructor|].
  destruct (isspace c) eqn:Hc.
  - rewrite split_cons_space by assumption. intros H. constructor; [exact Hc|exact (IH H)].
  - unfold split. simpl. destruct (split_words s) as [w ws]. rewrite Hc.
    unfold push_word. simpl. discriminate.
Qed.

Lemma split_blank (s : str) : blank s -> split s = [].
Proof.
  induction 1 as [|c s Hc _ IH]; [reflexivity|].
  now rewrite split_cons_space.
Qed.

Lemma join_words_head (ws : list str) :
  Forall word ws -> ws <> [] ->
  exists c r, join space ws = c :: r /\ isspace c = false.
Proof.
  intros H Hne. destruct H as [|w ws [Hw Hs] _]; [congruence|].
  destruct w as [|c w]; [congruence|]. inversion Hs as [|? ? Hc _]; subst.
  simpl. destruct ws; simpl; eauto.
Qed.

Lemma join_words_trimmed (ws : list str) : Forall word ws -> trimmed (join space ws).
Proof.
  intros H. split.
  - destruct ws as [|w ws]; [reflexivity|].
    destruct (join_words_head (w :: ws) H) as [c [r [E Hc]]]; [discriminate|].
    rewrite E. now apply lstrip_solid_head.
  - induction H as [|w ws [Hne Hs] Hws IH]; [reflexivity|].
    destruct ws as [|w' ws']; [rewrite join_one|rewrite join_more].
    + destruct (rstrip_decomp w) as [post [Hpost E]].
      destruct post as [|p post]; [now rewrite app_nil_r in E|].
      exfalso. inversion Hpost as [|? ? Hp _]; subst.
      assert (Hin : In p w) by (rewrite E; apply in_or_app; right; now left).
      unfold solid in Hs. rewrite Forall_forall in Hs. specialize (Hs _ Hin). congruence.
    + destruct (join_words_head (w' :: ws') Hws) as [c [r [E Hc]]]; [discriminate|].
      rewrite rstrip_app, rstrip_app, IH, E. reflexivity.
Qed.

Lemma normalize_trimmed (t : str) : trimmed (normalize_whitespace t).
Proof. apply join_words_trimmed, split_all_words. Qed.

Lemma normalize_idempotent (t : str) :
  normalize_whitespace (normalize_whitespace t) = normalize_whitespace t.
Proof.
  unfold normalize_whitespace. fold space.
  now rewrite split_join by apply split_all_words.
Qed.

Lemma normalize_nil_iff (t : str) : normalize_whitespace t = [] <-> blank t.
Proof.
  unfold normalize_whitespace. fold space. split.
  - intros H. apply split_nil_blank.
    destruct (split t) as [|w ws] eqn:E; [reflexivity|].
    destruct (join_words_head (w :: ws)) as [c [r [E' _]]];
      [rewrite <- E; apply split_all_words|discriminate|congruence].
  - intros H. now rewrite split_blank.
Qed.

Lemma single_spaced_solid_cons (c : char) (s : str) :
  isspace c = false -> single_spaced (c :: s) = single_spaced s.
Proof. intros H. simpl. rewrite H. now destruct s. Qed.

Lemma single_spaced_solid_app (u s : str) :
  solid u -> single_spaced (u ++ s) = single_spaced s.
Proof.
  induction 1 as [|c u Hc _ IH]; [reflexivity|].
  change ((c :: u) ++ s) with (c :: (u ++ s)).
  now rewrite single_spaced_solid_cons.
Qed.

Lemma join_words_single_spaced (ws : list str) :
  Forall word ws -> single_spaced (join space ws) = true.
Proof.
  induction 1 as [|w ws [Hne Hs] Hws IH]; [reflexivity|].
  destruct ws as [|w' ws']; [rewrite join_one|rewrite join_more].
  - rewrite <- (app_nil_r w). now rewrite single_spaced_solid_app.
  - rewrite single_spaced_solid_app by assumption.
    destruct (join_words_head (w' :: ws') Hws) as [c [r [E Hc]]]; [discriminate|].
    change (space ++ join space (w' :: ws')) with (32%N :: join space (w' :: ws')).
    rewrite E in *.
    change (single_spaced (32%N :: c :: r))
      with (negb (isspace 32%N && isspace c) && single_spaced (c :: r)).
    rewrite Hc, andb_false_r. exact IH.
Qed.

Lemma single_spaced_tail (c : char) (s : str) :
  single_spaced (c :: s) = true -> single_spaced s = true.
Proof.
  simpl. destruct s; [reflexivity|]. intros H.
  apply andb_true_iff in H. apply H.
Qed.

Lemma single_spaced_skipn (k : nat) (s : str) :
  single_spaced s = true -> single_spaced (skipn k s) = true.
Proof.
  revert s. induction k as [|k IH]; intros s H; [exact H|].
  destruct s as [|c s]; [reflexivity|]. simpl. apply IH.
  eapply single_spaced_tail; eauto.
Qed.

Lemma single_spaced_pair (c d : char) (s : str) :
  single_spaced (c :: d :: s) = true -> isspace c = true -> isspace d = false.
Proof.
  simpl. intros H Hc. rewrite Hc in H. destruct (isspace d); [discriminate|reflexivity].
Qed.

(** ** The normaliser against its description *)

Lemma join_cons_tail (w : str) (ws : list str) :
  join space (w :: ws) = w ++ tail_words ws.
Proof. destruct ws; [now rewrite join_one, app_nil_r|now rewrite join_more]. Qed.

Lemma rstrip_cons (a : char) (y : str) :
  rstrip (a :: y) = if truthy (rstrip y) then a :: rstrip y else rstrip [a].
Proof. exact (rstrip_app [a] y). Qed.

Lemma rstrip_collapse_runs (s : str) :
  rstrip (collapse_runs s)
  = fst (split_words s) ++ tail_words (snd (split_words s)).
Proof.
  induction s as [|c s IH]; [reflexivity|].
  destruct (isspace c) eqn:Hc.
  - destruct s as [|c' s'].
    + simpl. rewrite Hc. reflexivity.
    + change (collapse_runs (c :: c' :: s'))
        with (if isspace c then
                if isspace c' then collapse_runs (c' :: s')
                else 32%N :: collapse_runs (c' :: s')
              else c :: collapse_runs (c' :: s')).
      change (split_words (c :: c' :: s'))
        with (let '(w, ws) := split_words (c' :: s') in
              if isspace c then ([], push_word w ws) else (c :: w, ws)).
      rewrite Hc. revert IH.
      change (split_words (c' :: s'))
        with (let '(w, ws) := split_words s' in
              if isspace c' then ([], push_word w ws) else (c' :: w, ws)).
      destruct (split_words s') as [w ws].
      destruct (isspace c') eqn:Hc'; cbn [fst snd]; intros IH.
      * rewrite IH. reflexivity.
      * rewrite rstrip_cons, IH. cbn [app truthy push_word tail_words].
        now rewrite join_cons_tail.
  - change (collapse_runs (c :: s))
      with (if isspace c then
              match s with
              | [] => [32%N]
              | c' :: _ => if isspace c' then collapse_runs s
                           else 32%N :: collapse_runs s
              end
            else c :: collapse_runs s).
    change (split_words (c :: s))
      with (let '(w, ws) := split_words s in
            if isspace c then ([], push_word w ws) else (c :: w, ws)).
    rewrite Hc, rstrip_cons, IH. destruct (split_words s) as [w ws]. cbn [fst snd].
    change ((c :: w) ++ tail_words ws) with (c :: (w ++ tail_words ws)).
    destruct (w ++ tail_words ws); cbn [truthy]; [|reflexivity].
    unfold rstrip. simpl. now rewrite Hc.
Qed.

Lemma strip_commute (s : str) : rstrip (lstrip s) = lstrip (rstrip s).
Proof.
  destruct (strip_decomp s) as [pre [post [Hpre [Hpost Hs]]]].
  pose proof (strip_trimmed s) as [Hl Hr].
  fold (strip s). rewrite Hs at 2.
  rewrite app_assoc, rstrip_app_blank, rstrip_app, Hr by assumption.
  destruct (strip s) as [|c r] eqn:E; cbn [truthy].
  - now rewrite rstrip_blank.
  - now rewrite lstrip_blank_app.
Qed.

Lemma normalize_collapse (t : str) :
  normalize_whitespace t = strip (collapse_runs t).
Proof.
  unfold strip. rewrite strip_commute, rstrip_collapse_runs.
  unfold normalize_whitespace. fold space. rewrite split_words_fold.
  destruct (split_words_inv t) as [Hw Hws].
  destruct (split_words t) as [w ws]. cbn [fst snd] in *.
  destruct w as [|d w].
  - cbn [push_word truthy app]. destruct ws as [|w' ws']; [reflexivity|].
    cbn [tail_words]. change (lstrip (32%N :: join space (w' :: ws')))
      with (lstrip (join space (w' :: ws'))).
    symmetry. now apply join_words_trimmed.
  - cbn [push_word truthy]. rewrite join_cons_tail.
    inversion Hw; subst. symmetry. now apply lstrip_solid_head.
Qed.

(** ** [range], slices and the loop *)

Lemma range_length_pos (n step : Z) :
  0 < step ->
  range_length 0 n step = if n <=? 0 then 0 else (n - 1) / step + 1.
Proof.
  intros H. unfold range_length.
  destruct (0 <? step) eqn:E; [|apply Z.ltb_ge in E; lia].
  now rewrite Z.sub_0_r.
Qed.

Lemma range_length_bound (n step k : Z) :
  0 < step -> 0 <= k -> (k < range_length 0 n step <-> k * step < n).
Proof.
  intros Hs Hk. rewrite range_length_pos by assumption.
  destruct (n <=? 0) eqn:E.
  - apply Z.leb_le in E. split; [lia|nia].
  - apply Z.leb_gt in E.
    pose proof (Z.div_mod (n - 1) step ltac:(lia)) as Hd.
    pose proof (Z.mod_pos_bound (n - 1) step Hs) as Hm.
    split; intros H; nia.
Qed.

Lemma range_pos (n step : Z) :
  0 < step ->
  range 0 n step = Ok (multiples step (Z.to_nat (range_length 0 n step))).
Proof.
  intros H. unfold range. destruct (step =? 0) eqn:E; [|reflexivity].
  apply Z.eqb_eq in E. lia.
Qed.

Lemma range_length_nonneg (n step : Z) : 0 < step -> 0 <= range_length 0 n step.
Proof.
  intros H. rewrite range_length_pos by assumption.
  destruct (n <=? 0) eqn:E; [lia|]. apply Z.leb_gt in E.
  pose proof (Z.div_pos (n - 1) step ltac:(lia) H). lia.
Qed.

Lemma in_multiples (step : Z) (count : nat) (z : Z) :
  In z (multiples step count) <->
  exists k, 0 <= k < Z.of_nat count /\ z = k * step.
Proof.
  unfold multiples. rewrite in_map_iff. split.
  - intros [i [Hz Hi]]. apply in_seq in Hi. exists (Z.of_nat i).
    rewrite Z.add_0_l in Hz. split; [lia|now symmetry].
  - intros [k [Hk Hz]]. exists (Z.to_nat k). split.
    + rewrite Z2Nat.id by lia. now rewrite Z.add_0_l.
    + apply in_seq. lia.
Qed.

Lemma in_range (n step : Z) (starts : list Z) (z : Z) :
  0 < step -> range 0 n step = Ok starts ->
  (In z starts <-> exists k, 0 <= k /\ z = k * step /\ z < n).
Proof.
  intros Hs Hr. rewrite range_pos in Hr by assumption. injection Hr as <-.
  rewrite in_multiples. pose proof (range_length_nonneg n step Hs) as Hn.
  split; intros [k Hk]; exists k.
  - destruct Hk as [[H0 H1] Hz]. repeat split; auto.
    subst z. apply range_length_bound; lia.
  - destruct Hk as [H0 [Hz Hlt]]. split; [|exact Hz]. split; [exact H0|].
    rewrite Z2Nat.id by assumption. apply range_length_bound; auto. now subst z.
Qed.

Lemma multiples_sorted (step : Z) (count : nat) :
  0 < step -> StronglySorted Z.lt (multiples step count).
Proof.
  intros Hs. unfold multiples. generalize 0%nat as from.
  induction count as [|count IH]; intros from; simpl; constructor.
  - apply IH.
  - apply Forall_forall. intros z Hz. apply in_map_iff in Hz.
    destruct Hz as [i [<- Hi]]. apply in_seq in Hi. nia.
Qed.

Lemma fold_chunk_step (text : str) (chunk_size : Z) (starts : list Z)
    (acc : list str) :
  fold_left (chunk_step text chunk_size) starts acc
  = acc ++ filter truthy
             (map (fun start => strip (slice text start (start + chunk_size)))
                  starts).
Proof.
  revert acc. induction starts as [|st starts IH]; intros acc; simpl.
  - now rewrite app_nil_r.
  - rewrite IH. unfold chunk_step.
    destruct (truthy (strip (slice text st (st + chunk_size)))); [|reflexivity].
    now rewrite <- app_assoc.
Qed.

Lemma slice_window (text : str) (size off : Z) :
  0 <= off -> 0 <= size -> slice text off (off + size) = window text size off.
Proof.
  intros Ho Hs. unfold slice, window, adjust_index, len.
  destruct (off <? 0) eqn:E1; [apply Z.ltb_lt in E1; lia|].
  destruct (off + size <? 0) eqn:E2; [apply Z.ltb_lt in E2; lia|].
  set (n := List.length text).
  destruct (Z_le_gt_dec off (Z.of_nat n)) as [Hle|Hgt].
  - rewrite (Z.min_l off) by lia.
    destruct (Z_le_gt_dec (off + size) (Z.of_nat n)) as [Hle'|Hgt'].
    + rewrite Z.min_l by lia. f_equal. lia.
    + rewrite Z.min_r by lia.
      rewrite !firstn_all2; auto; rewrite length_skipn; fold n; lia.
  - rewrite !Z.min_r by lia. rewrite Z.sub_diag.
    rewrite (skipn_all2 (n := Z.to_nat off)) by (fold n; lia).
    now rewrite firstn_nil.
Qed.

Lemma slice_substring (text : str) (lo hi : Z) :
  exists pre post, text = pre ++ slice text lo hi ++ post.
Proof.
  unfold slice.
  set (a := Z.to_nat (adjust_index (len text) lo)).
  set (k := Z.to_nat (_ - _)).
  exists (firstn a text), (skipn k (skipn a text)).
  now rewrite !firstn_skipn.
Qed.

Lemma window_length (text : str) (size off : Z) :
  0 <= size -> len (window text size off) <= size.
Proof.
  intros H. unfold len, window. rewrite length_firstn. lia.
Qed.

Lemma filter_in_truthy (f : Z -> str) (starts : list Z) (st : Z) :
  In st starts -> f st <> [] -> In (f st) (filter truthy (map f starts)).
Proof.
  intros Hin Hne. apply filter_In. split; [now apply in_map|].
  now apply truthy_true.
Qed.

(** The chunker on valid parameters, in closed form. *)
Lemma split_fixed_overlap_ok (T : str) (S O : Z) :
  O < S ->
  exists starts,
    range 0 (len (normalize_whitespace T)) (S - O) = Ok starts
    /\ split_fixed_overlap T S O
       = Ok (filter truthy
               (map (fun start =>
                       strip (slice (normalize_whitespace T) start (start + S)))
                    starts)).
Proof.
  intros H. unfold split_fixed_overlap.
  destruct (O >=? S) eqn:E; [apply Z.geb_le in E; lia|].
  rewrite range_pos by lia. eexists. split; [reflexivity|].
  destruct (truthy (normalize_whitespace T)) eqn:Et; simpl.
  - now rewrite fold_chunk_step.
  - apply truthy_false in Et. rewrite Et. change (len []) with 0.
    rewrite range_length_pos by lia. reflexivity.
Qed.

(** ** Shapes of chunks *)

Lemma trimmed_no_outer_space (m : str) :
  trimmed m -> starts_with_space m = false /\ ends_with_space m = false.
Proof.
  intros H. split.
  - destruct m as [|c r]; [reflexivity|]. simpl. eapply trimmed_head; eauto.
  - unfold ends_with_space. destruct (rev m) as [|c r] eqn:E; [reflexivity|].
    simpl. apply (trimmed_last (rev r) c).
    apply (f_equal (@rev char)) in E. rewrite rev_involutive in E.
    simpl in E. now rewrite <- E.
Qed.

Lemma strip_solid_head (c : char) (x : str) :
  isspace c = false -> strip (c :: x) <> [].
Proof.
  intros Hc H. apply strip_nil_iff in H. inversion H; congruence.
Qed.

Lemma window_zero_cons (c : char) (r : str) (size : Z) :
  0 < size -> window (c :: r) size 0 = c :: firstn (Z.to_nat size - 1) r.
Proof.
  intros H. unfold window. change (Z.to_nat 0) with 0%nat. cbn [skipn].
  replace (Z.to_nat size) with (Datatypes.S (Z.to_nat size - 1)) at 1 by lia.
  reflexivity.
Qed.

Lemma rstrip_suffix (a x : str) :
  rstrip (a ++ x) = a ++ x -> x <> [] -> rstrip x = x.
Proof.
  intros H Hx. rewrite rstrip_app in H.
  destruct (truthy (rstrip x)).
  - now apply app_inv_head in H.
  - exfalso. pose proof (rstrip_length a) as Hl. rewrite H, length_app in Hl.
    destruct x; [congruence|simpl in Hl; lia].
Qed.

Lemma normalized_facts (T : str) :
  normalize_whitespace T = T -> trimmed T /\ single_spaced T = true.
Proof.
  intros H. split.
  - rewrite <- H. apply normalize_trimmed.
  - rewrite <- H. unfold normalize_whitespace. fold space.
    apply join_words_single_spaced, split_all_words.
Qed.

(** A suffix of a normalised text, trimmed: it loses at most its first
    character. *)
Lemma strip_suffix_of_normalized (T a : str) (c : char) (x : str) :
  normalize_whitespace T = T -> T = a ++ c :: x -> x <> [] ->
  strip (c :: x) = if isspace c then x else c :: x.
Proof.
  intros Hn HT Hx. destruct (normalized_facts T Hn) as [[_ Hr] Hs].
  assert (Hrx : rstrip (c :: x) = c :: x).
  { apply (rstrip_suffix a); [now rewrite <- HT|discriminate]. }
  assert (Hsx : single_spaced (c :: x) = true).
  { replace (c :: x) with (skipn (List.length a) T).
    - now apply single_spaced_skipn.
    - rewrite HT, skipn_app, Nat.sub_diag, skipn_all. reflexivity. }
  unfold strip. destruct (isspace c) eqn:Hc.
  - destruct x as [|d x]; [congruence|].
    pose proof (single_spaced_pair _ _ _ Hsx Hc) as Hd.
    simpl. rewrite Hc, Hd. apply (rstrip_suffix [c]); [exact Hrx|discriminate].
  - now rewrite lstrip_solid_head.
Qed.

(** * The chunker *)

(** C1, amended: for every text and all integers [O < S] with [S] not
    negative, the chunker normalises the text, steps by [S - O] through the
    offsets below the normalised length, takes up to [S] characters at each,
    trims them, drops the empty ones and keeps the order of the offsets. *)
Theorem split_fixed_overlap_described (T : str) (S O : Z) :
  O < S -> 0 <= S -> chunks_as_described T S O.
Proof.
  intros H HS. destruct (split_fixed_overlap_ok T S O H) as [starts [Hr Hs]].
  exists starts. split; [|split].
  - rewrite range_pos in Hr by lia. injection Hr as <-.
    apply multiples_sorted. lia.
  - intros z. apply in_range; [lia|exact Hr].
  - rewrite Hs. do 2 f_equal. apply map_ext_in. intros st Hin.
    assert (Hstep : 0 < S - O) by lia.
    apply (in_range _ _ _ st Hstep Hr) in Hin.
    destruct Hin as [k [Hk [-> _]]]. rewrite slice_window; [reflexivity|nia|lia].
Qed.

Lemma split_fixed_overlap_described_witness :
  chunks_as_described (lit "abcdefghij") 4 1.
Proof. apply split_fixed_overlap_described; lia. Defined.

(** C1 as stated fails for a negative chunk size: the slice bound then
    counts from the end of the text. *)
Lemma negative_size_not_described :
  -2 < -1 /\ ~ chunks_as_described (lit "abc") (-1) (-2).
Proof.
  split; [lia|]. intros [offsets [_ [_ H]]].
  assert (E : filter truthy
                (map (fun off =>
                        strip (window (normalize_whitespace (lit "abc")) (-1) off))
                     offsets) = []).
  { clear H. induction offsets as [|z l IH]; [reflexivity|exact IH]. }
  rewrite E in H. vm_compute in H. discriminate.
Qed.

(** C2: [InvalidConfiguration] is raised exactly when the overlap is not
    smaller than the chunk size, equality included, whatever the text, the
    empty text included. *)
Theorem invalid_configuration_iff (T : str) (S O : Z) :
  (split_fixed_overlap T S O = Raise InvalidConfiguration <-> O >= S)
  /\ (O >= S -> split_fixed_overlap [] S O = Raise InvalidConfiguration).
Proof.
  assert (G : forall T', O >= S ->
                         split_fixed_overlap T' S O = Raise InvalidConfiguration).
  { intros T' H. unfold split_fixed_overlap.
    destruct (O >=? S) eqn:E; [reflexivity|].
    rewrite Z.geb_leb in E. apply Z.leb_gt in E. lia. }
  split; [split|]; auto.
  intros H. destruct (Z_lt_ge_dec O S) as [Hlt|Hge]; [|exact Hge].
  destruct (split_fixed_overlap_ok T S O Hlt) as [starts [_ Hs]].
  rewrite Hs in H. discriminate.
Qed.

Lemma invalid_configuration_boundary :
  split_fixed_overlap [] 7 7 = Raise InvalidConfiguration.
Proof. apply (proj2 (invalid_configuration_iff [] 7 7)). lia. Defined.

(** C3: on valid parameters an empty or all-white-space text gives no
    chunks and no error. *)
Theorem blank_text_no_chunks (T : str) (S O : Z) :
  O < S -> blank T -> split_fixed_overlap T S O = Ok [].
Proof.
  intros H Hb. unfold split_fixed_overlap.
  destruct (O >=? S) eqn:E; [apply Z.geb_le in E; lia|].
  apply normalize_nil_iff in Hb. now rewrite Hb.
Qed.

Lemma blank_text_no_chunks_witness :
  split_fixed_overlap [] 4 1 = Ok []
  /\ split_fixed_overlap [32; 9; 10; 8232]%N 4 1 = Ok [].
Proof.
  split; apply blank_text_no_chunks; try lia; repeat constructor.
Defined.

(** C4, amended: with [0 <= O < S], when no window trims to empty, every
    character position of the normalised text lies in the span
    [[offset, offset + S)] of a returned chunk. *)
Theorem windows_cover_text (T : str) (S O : Z) :
  O < S -> 0 <= O -> covered_as_described T S O.
Proof.
  intros H HO. destruct (split_fixed_overlap_ok T S O H) as [starts [Hr Hs]].
  exists starts. eexists. split; [exact Hr|]. split; [exact Hs|].
  intros Hne p Hp. set (step := S - O) in *.
  assert (Hstep : 0 < step) by (unfold step; lia).
  pose proof (Z.div_mod p step ltac:(lia)) as Hd.
  pose proof (Z.mod_pos_bound p step Hstep) as Hm.
  assert (Hq : 0 <= p / step) by (apply Z.div_pos; lia).
  assert (Hin : In (p / step * step) starts).
  { apply (in_range _ _ _ _ Hstep Hr). exists (p / step). repeat split; auto. nia. }
  exists (p / step * step). split; [exact Hin|]. split; [unfold step in *; nia|].
  apply (filter_in_truthy
           (fun start => strip (slice (normalize_whitespace T) start (start + S))));
    auto.
Qed.

Lemma windows_cover_text_witness : covered_as_described (lit "abcdefghij") 4 1.
Proof. apply windows_cover_text; lia. Defined.

(** C4 as stated fails for a negative overlap: the step then exceeds the
    chunk size and the windows leave gaps. *)
Lemma negative_overlap_leaves_gaps :
  -1 < 2 /\ ~ covered_as_described (lit "abcdef") 2 (-1).
Proof.
  split; [lia|]. intros [starts [chunks [Hr [_ H]]]].
  vm_compute in Hr. injection Hr as <-.
  destruct (H ltac:(intros st [<-|[<-|[]]]; vm_compute; discriminate) 2
              ltac:(vm_compute; split; [discriminate|reflexivity]))
    as [st [Hin [Hst _]]].
  destruct Hin as [<-|[<-|[]]]; lia.
Qed.

(** C5: the worked example of the specification. *)
Theorem scenario_abcdefghij_chunks :
  normalize_whitespace (lit "abcdefghij") = lit "abcdefghij"
  /\ range 0 (len (lit "abcdefghij")) (4 - 1) = Ok [0; 3; 6; 9]
  /\ split_fixed_overlap (lit "abcdefghij") 4 1
     = Ok [lit "abcd"; lit "defg"; lit "ghij"; lit "j"].
Proof. repeat split. Qed.

(** C6, amended: a normalised text of length 1500 under the default
    parameters is cut at offsets 0 and 800 into exactly two chunks, the
    trimmed windows [T[0:1000]] and [T[800:1800]]; the second has length 700
    when the character at offset 800 is not white space, and 699 when it
    is. *)
Theorem scenario_1500_chunks (T : str) :
  normalize_whitespace T = T -> List.length T = 1500%nat ->
  exists c1 c2,
    range 0 (len T) (CHUNK_SIZE - CHUNK_OVERLAP) = Ok [0; 800]
    /\ split_fixed_overlap T CHUNK_SIZE CHUNK_OVERLAP = Ok [c1; c2]
    /\ c1 = strip (slice T 0 1000)
    /\ c2 = strip (slice T 800 1800)
    /\ len c2 = if isspace (nth 800 T 0%N) then 699 else 700.
Proof.
  intros Hn Hl.
  destruct (split_fixed_overlap_ok T CHUNK_SIZE CHUNK_OVERLAP) as [starts [Hr Hs]];
    [reflexivity|].
  rewrite Hn in Hr, Hs.
  assert (Hr' : range 0 (len T) (CHUNK_SIZE - CHUNK_OVERLAP) = Ok [0; 800]).
  { unfold len. rewrite Hl. reflexivity. }
  rewrite Hr' in Hr. injection Hr as <-.
  destruct (normalized_facts T Hn) as [Ht _].
  (* the first window starts with the first character of the text *)
  destruct T as [|c r] eqn:ET; [discriminate|]. rewrite <- ET in *.
  assert (H1 : strip (slice T 0 (0 + CHUNK_SIZE)) <> []).
  { rewrite slice_window by (unfold CHUNK_SIZE; lia).
    rewrite ET, window_zero_cons by reflexivity.
    apply strip_solid_head. rewrite ET in Ht. eapply trimmed_head; eauto. }
  (* the second window is the last 700 characters *)
  assert (Hlen : List.length (skipn 800 T) = 700%nat)
    by (rewrite length_skipn, Hl; reflexivity).
  assert (H2 : slice T 800 (800 + CHUNK_SIZE) = skipn 800 T).
  { rewrite slice_window by (unfold CHUNK_SIZE; lia). unfold window.
    change (Z.to_nat 800) with 800%nat.
    apply firstn_all2. rewrite Hlen. unfold CHUNK_SIZE. lia. }
  destruct (skipn 800 T) as [|d x] eqn:EX; [discriminate|].
  destruct x as [|d' x']; [discriminate|].
  assert (HT : T = firstn 800 T ++ d :: d' :: x')
    by (rewrite <- EX; symmetry; apply firstn_skipn).
  pose proof (strip_suffix_of_normalized T _ d (d' :: x') Hn HT ltac:(discriminate))
    as H3.
  assert (Hnth : nth 800 T 0%N = d).
  { rewrite HT at 1. rewrite app_nth2; rewrite length_firstn, Hl; [|lia].
    reflexivity. }
  exists (strip (slice T 0 1000)), (strip (slice T 800 1800)).
  split; [exact Hr'|].
  change (800 + CHUNK_SIZE) with 1800 in *. change (0 + CHUNK_SIZE) with 1000 in *.
  split; [|split; [reflexivity|split; [reflexivity|]]].
  - rewrite Hs. cbn [map filter].
    change (0 + CHUNK_SIZE) with 1000. change (800 + CHUNK_SIZE) with 1800.
    apply truthy_true in H1. rewrite H1.
    assert (H4 : truthy (strip (slice T 800 1800)) = true).
    { rewrite H2, H3. now destruct (isspace d). }
    now rewrite H4.
  - rewrite H2, H3, Hnth. unfold len.
    destruct (isspace d); cbn [List.length] in *; lia.
Qed.

Lemma scenario_1500_chunks_witness :
  exists c1 c2,
    range 0 (len space_at_800) (CHUNK_SIZE - CHUNK_OVERLAP) = Ok [0; 800]
    /\ split_fixed_overlap space_at_800 CHUNK_SIZE CHUNK_OVERLAP = Ok [c1; c2]
    /\ c1 = strip (slice space_at_800 0 1000)
    /\ c2 = strip (slice space_at_800 800 1800)
    /\ len c2 = if isspace (nth 800 space_at_800 0%N) then 699 else 700.
Proof.
  apply scenario_1500_chunks; vm_compute; reflexivity.
Defined.

(** C6 as stated fails when the character at offset 800 is a space: the
    second chunk then has 699 characters. *)
Lemma scenario_1500_second_chunk_699 :
  ~ scenario_1500_as_specified space_at_800.
Proof.
  intros H.
  destruct H as [c1 [c2 [Hs Hlen]]]; [vm_compute; reflexivity ..|].
  assert (E : split_fixed_overlap space_at_800 CHUNK_SIZE CHUNK_OVERLAP
              = Ok [repeat 97%N 800 ++ [32%N] ++ repeat 97%N 199;
                    repeat 97%N 699]) by (vm_compute; reflexivity).
  rewrite E in Hs. injection Hs as _ <-.
  vm_compute in Hlen. discriminate Hlen.
Qed.

(** * The normaliser *)

(** C7: the normaliser replaces every maximal run of white space by one
    ASCII space and removes what is then left at either end; its result
    neither starts nor ends with white space; normalising twice is
    normalising once. *)
Theorem normalize_whitespace_contract (t : str) :
  normalize_whitespace t = strip (collapse_runs t)
  /\ starts_with_space (normalize_whitespace t) = false
  /\ ends_with_space (normalize_whitespace t) = false
  /\ normalize_whitespace (normalize_whitespace t) = normalize_whitespace t.
Proof.
  split; [apply normalize_collapse|].
  destruct (trimmed_no_outer_space _ (normalize_trimmed t)) as [Hs He].
  repeat split; auto. apply normalize_idempotent.
Qed.

(** * Invariants of the chunks *)

(** C10, amended: for [O < S] with [S] positive, every returned chunk is
    non-empty, at most [S] long, free of white space at both ends and the
    trimming of a contiguous substring of the normalised text; and a text
    with a character that is not white space gives at least one chunk. *)
Theorem split_fixed_overlap_invariants (T : str) (S O : Z) :
  O < S -> 0 < S -> chunk_invariants T S O.
Proof.
  intros H HS. destruct (split_fixed_overlap_ok T S O H) as [starts [Hr Hs]].
  assert (Hstep : 0 < S - O) by lia.
  eexists. split; [exact Hs|]. split.
  - apply Forall_forall. intros c Hc. apply filter_In in Hc.
    destruct Hc as [Hc Hne]. apply in_map_iff in Hc. destruct Hc as [st [<- Hin]].
    apply (in_range _ _ _ st Hstep Hr) in Hin. destruct Hin as [k [Hk [-> _]]].
    set (w := slice (normalize_whitespace T) (k * (S - O)) (k * (S - O) + S)) in *.
    destruct (trimmed_no_outer_space _ (strip_trimmed w)) as [Hs1 Hs2].
    repeat split; auto.
    + now apply truthy_true.
    + pose proof (strip_length w) as Hl. unfold len.
      assert (Hw : len w <= S).
      { unfold w. rewrite slice_window by nia. apply window_length. lia. }
      unfold len in Hw. lia.
    + destruct (slice_substring (normalize_whitespace T)
                  (k * (S - O)) (k * (S - O) + S)) as [pre [post E]].
      exists pre, w, post. split; [exact E|reflexivity].
  - intros [c0 [Hin0 Hc0]].
    destruct (normalize_whitespace T) as [|c r] eqn:E.
    + exfalso. apply normalize_nil_iff in E. unfold blank in E.
      rewrite Forall_forall in E. specialize (E _ Hin0). congruence.
    + assert (Hc : isspace c = false).
      { apply (trimmed_head c r). rewrite <- E. apply normalize_trimmed. }
      assert (Hin : In 0 starts).
      { apply (in_range _ _ _ 0 Hstep Hr). exists 0. unfold len. simpl. lia. }
      intros Hnil.
      apply (filter_in_truthy (fun start => strip (slice (c :: r) start (start + S))))
        in Hin.
      * rewrite Hnil in Hin. exact Hin.
      * change (0 + S) with S. replace S with (0 + S) at 1 by lia.
        rewrite slice_window, window_zero_cons by lia.
        now apply strip_solid_head.
Qed.

Lemma split_fixed_overlap_invariants_witness :
  chunk_invariants (lit "  fixed  size windows ") 4 1.
Proof. apply split_fixed_overlap_invariants; lia. Defined.

(** C10 as stated fails when the chunk size is not positive: a negative
    size gives a chunk longer than the size. *)
Lemma negative_size_long_chunk :
  -2 < -1 /\ ~ chunk_invariants (lit "abc") (-1) (-2).
Proof.
  split; [lia|]. intros [chunks [Hs [Hall _]]].
  vm_compute in Hs. injection Hs as <-.
  inversion Hall as [|c l [_ [Hlen _]] _]; subst.
  vm_compute in Hlen. apply Hlen. reflexivity.
Qed.

(** * The persister *)

Section Persister.

Variable float : Type.
Variable E : env float.

Lemma new_row_built (file : str) (now : Z) (pair : str * list float)
    (w : world float) :
  exists r w', new_row E file now pair w = (Ok r, w').
Proof. destruct pair. eexists; eexists; reflexivity. Qed.

Lemma rows_built (file : str) (now : Z) (pairs : list (str * list float))
    (w : world float) :
  exists rows w', mapM (new_row E file now) pairs w = (Ok rows, w').
Proof.
  revert w. induction pairs as [|pair pairs IH]; intros w.
  - eexists; eexists; reflexivity.
  - cbn [mapM]. unfold bind at 1.
    destruct (new_row_built file now pair w) as [r [w1 Hr]]. rewrite Hr.
    unfold bind at 1. destruct (IH w1) as [rows [w' H]]. rewrite H.
    eexists; eexists; reflexivity.
Qed.

(** With equal lengths the persister ends normally or with the database's
    own error. *)
Lemma insert_chunks_equal_lengths (file : str) (chunks : list str)
    (embeddings : list (list float)) (w : world float) :
  List.length chunks = List.length embeddings ->
  fst (insert_chunks E file chunks embeddings w) = Ok tt
  \/ fst (insert_chunks E file chunks embeddings w)
     = Raise (LibraryError "psycopg2").
Proof.
  intros H. unfold insert_chunks. apply Nat.eqb_eq in H. rewrite H. cbn [negb].
  unfold bind, utcnow.
  destruct (rows_built file (clock w) (combine chunks embeddings) w)
    as [rows [w' Hrows]].
  rewrite Hrows. unfold db_connect. destruct (db_reachable E); simpl; auto.
Qed.

(** C8: the persister raises [LengthMismatch] exactly when the two
    sequences differ in length, and then leaves the world as it found it:
    no connection opened, no row written. *)
Theorem insert_chunks_length_mismatch (file : str) (chunks : list str)
    (embeddings : list (list float)) (w : world float) :
  (fst (insert_chunks E file chunks embeddings w) = Raise LengthMismatch
   <-> List.length chunks <> List.length embeddings)
  /\ (List.length chunks <> List.length embeddings ->
      insert_chunks E file chunks embeddings w = (Raise LengthMismatch, w)).
Proof.
  assert (G : List.length chunks <> List.length embeddings ->
              insert_chunks E file chunks embeddings w = (Raise LengthMismatch, w)).
  { intros H. unfold insert_chunks. apply Nat.eqb_neq in H. now rewrite H. }
  split; [split|exact G].
  - intros H Heq.
    destruct (insert_chunks_equal_lengths file chunks embeddings w Heq) as [R|R];
      rewrite R in H; discriminate.
  - intros H. now rewrite G.
Qed.

End Persister.

Lemma insert_chunks_length_mismatch_witness :
  insert_chunks offline_env (lit "a.pdf") [lit "one"; lit "two"] [[tt]] empty_world
  = (Raise LengthMismatch, empty_world).
Proof.
  apply (proj2 (insert_chunks_length_mismatch _ offline_env (lit "a.pdf")
                  [lit "one"; lit "two"] [[tt]] empty_world)).
  simpl. lia.
Defined.

(** * The text extractor *)

Lemma str_eqb_eq (a b : str) : str_eqb a b = true <-> a = b.
Proof.
  revert b. induction a as [|x a IH]; intros [|y b]; simpl;
    try (split; congruence).
  rewrite andb_true_iff, N.eqb_eq, IH. split; [intros [-> ->]|intros H; injection H]; auto.
Qed.

Lemma str_eqb_refl (a : str) : str_eqb a a = true.
Proof. now apply str_eqb_eq. Qed.

Lemma str_eqb_neq (a b : str) : a <> b -> str_eqb a b = false.
Proof.
  intros H. destruct (str_eqb a b) eqn:E; [|reflexivity].
  apply str_eqb_eq in E. congruence.
Qed.

Lemma endswith_nil (s : str) : endswith s [] = true.
Proof.
  unfold endswith. simpl. rewrite Nat.sub_0_r, skipn_all. reflexivity.
Qed.

Lemma endswith_iff (s suffix : str) :
  endswith s suffix = true <-> exists stem, s = stem ++ suffix.
Proof.
  unfold endswith. rewrite andb_true_iff, Nat.leb_le, str_eqb_eq. split.
  - intros [_ H]. exists (firstn (List.length s - List.length suffix) s).
    rewrite <- H at 2. symmetry. apply firstn_skipn.
  - intros [stem ->]. rewrite length_app. split; [lia|].
    replace (List.length stem + List.length suffix - List.length suffix)%nat
      with (List.length stem) by lia.
    rewrite skipn_app, Nat.sub_diag, skipn_all. reflexivity.
Qed.

Lemma endswith_snoc (s t : str) (a b : char) :
  endswith (s ++ [a]) (t ++ [b]) = (a =? b)%N && endswith s t.
Proof.
  apply eq_true_iff_eq. rewrite andb_true_iff, N.eqb_eq, !endswith_iff. split.
  - intros [stem H]. rewrite app_assoc in H. apply app_inj_tail in H.
    destruct H as [-> ->]. eauto.
  - intros [-> [stem ->]]. exists stem. now rewrite app_assoc.
Qed.

Lemma endswith_nil_snoc (t : str) (b : char) : endswith [] (t ++ [b]) = false.
Proof.
  unfold endswith. rewrite length_app. simpl.
  replace (List.length t + 1 <=? 0)%nat with false; [reflexivity|].
  symmetry. apply Nat.leb_gt. lia.
Qed.

Lemma lower_from_lowered {float : Type} (E : env float) (s before : str) :
  lower_table_sound E -> lowered s (lower_from E before s).
Proof.
  intros HE. revert before. induction s as [|c s IH]; intros before; simpl.
  - constructor.
  - unfold lower_char. destruct (c <? 128)%N eqn:Hc.
    + apply N.ltb_lt in Hc. simpl. now constructor.
    + apply N.ltb_ge in Hc. destruct (HE before c s Hc) as [H1 H2].
      now constructor.
Qed.

Lemma lowered_snoc (s : str) (c : char) (out : str) :
  lowered (s ++ [c]) out ->
  exists o1 o2, out = o1 ++ o2 /\ lowered s o1 /\ lowered [c] o2.
Proof.
  revert out. induction s as [|d s IH]; intros out H.
  - exists [], out. auto using lowered_nil.
  - inversion H as [|? ? o Hd Hs|? ? ys o Hd Hy Hr Hs]; subst.
    + destruct (IH _ Hs) as [o1 [o2 [-> [H1 H2]]]].
      exists (ascii_lower d :: o1), o2. repeat split; auto. now constructor.
    + destruct (IH _ Hs) as [o1 [o2 [-> [H1 H2]]]].
      exists (ys ++ o1), o2. rewrite app_assoc. repeat split; auto. now constructor.
Qed.

Lemma ascii_lower_high (c : char) : (128 <= c)%N -> ascii_lower c = c.
Proof.
  intros H. unfold ascii_lower.
  destruct ((65 <=? c) && (c <=? 90))%N eqn:E; [|reflexivity].
  apply andb_true_iff in E. destruct E as [_ E]. apply N.leb_le in E. lia.
Qed.

Lemma rigid_ascii (b : char) : rigid b = true -> (b < 128)%N.
Proof.
  unfold rigid. intros H. apply andb_true_iff in H. destruct H as [H _].
  apply andb_true_iff in H. destruct H as [H _]. now apply N.ltb_lt.
Qed.

(** On a rigid suffix, [lower] and the ASCII rule agree. *)
Lemma endswith_lowered (s out tgt : str) :
  lowered s out -> forallb rigid tgt = true ->
  endswith out tgt = endswith (map ascii_lower s) tgt.
Proof.
  revert out tgt. induction s as [|c s IH] using rev_ind; intros out tgt H Ht.
  - inversion H; subst. reflexivity.
  - destruct (lowered_snoc _ _ _ H) as [o1 [o2 [-> [H1 H2]]]].
    destruct tgt as [|b t _] using rev_ind; [now rewrite !endswith_nil|].
    rewrite forallb_app in Ht. apply andb_true_iff in Ht. destruct Ht as [Ht Hb].
    simpl in Hb. rewrite andb_true_r in Hb.
    rewrite map_app. cbn [map]. rewrite endswith_snoc.
    inversion H2 as [|? ? o Hc Hn|? ? ys o Hc Hy Hr Hn]; subst.
    + inversion Hn; subst. rewrite endswith_snoc. f_equal. now apply IH.
    + inversion Hn; subst. rewrite app_nil_r.
      destruct (exists_last Hy) as [ys' [d ->]].
      rewrite app_assoc, endswith_snoc.
      rewrite forallb_app in Hr. apply andb_true_iff in Hr. destruct Hr as [_ Hd].
      simpl in Hd. rewrite andb_true_r in Hd.
      rewrite ascii_lower_high by assumption.
      assert (E1 : (d =? b)%N = false).
      { apply N.eqb_neq. intros ->. rewrite Hb in Hd. discriminate. }
      assert (E2 : (c =? b)%N = false).
      { apply N.eqb_neq. intros ->. apply rigid_ascii in Hb. lia. }
      now rewrite E1, E2.
Qed.

Lemma extension_suffix (q : str) : exists stem, q = stem ++ extension q.
Proof.
  induction q as [|c q [stem IH]]; [now exists []|].
  simpl. destruct (has_dot q).
  - exists (c :: stem). simpl. now f_equal.
  - destruct (c =? 46)%N; [now exists []|].
    exists (c :: q). now rewrite app_nil_r.
Qed.

Lemma has_dot_app (a b : str) : has_dot (a ++ b) = has_dot a || has_dot b.
Proof. apply existsb_app. Qed.

Lemma extension_of_suffix (stem rest : str) :
  has_dot rest = false -> extension (stem ++ 46%N :: rest) = 46%N :: rest.
Proof.
  intros H. induction stem as [|c stem IH]; simpl.
  - now rewrite H.
  - rewrite has_dot_app. simpl. rewrite orb_true_r. exact IH.
Qed.

Lemma endswith_extension (q rest : str) :
  has_dot rest = false ->
  endswith q (46%N :: rest) = str_eqb (extension q) (46%N :: rest).
Proof.
  intros H. apply eq_true_iff_eq. rewrite endswith_iff, str_eqb_eq. split.
  - intros [stem ->]. now apply extension_of_suffix.
  - intros E. destruct (extension_suffix q) as [stem Hq].
    exists stem. now rewrite <- E.
Qed.

Lemma ascii_lower_dot (c : char) : (ascii_lower c =? 46)%N = (c =? 46)%N.
Proof.
  unfold ascii_lower. destruct ((65 <=? c) && (c <=? 90))%N eqn:E; [|reflexivity].
  apply andb_true_iff in E. destruct E as [E1 E2].
  apply N.leb_le in E1. apply N.leb_le in E2.
  transitivity false; [|symmetry]; apply N.eqb_neq; lia.
Qed.

Lemma has_dot_lower (s : str) : has_dot (map ascii_lower s) = has_dot s.
Proof.
  unfold has_dot. induction s as [|c s IH]; [reflexivity|].
  cbn [map existsb]. rewrite IH. f_equal.
  rewrite !(N.eqb_sym 46). apply ascii_lower_dot.
Qed.

Lemma extension_lower (s : str) :
  extension (map ascii_lower s) = map ascii_lower (extension s).
Proof.
  induction s as [|c s IH]; [reflexivity|].
  cbn [map extension]. rewrite has_dot_lower, ascii_lower_dot, IH.
  destruct (has_dot s); [reflexivity|]. now destruct (c =? 46)%N.
Qed.

Section Extractor.

Variable float : Type.
Variable E : env float.
Hypothesis lower_sound : lower_table_sound E.

(** The test of [load_text] on a dotted lower-case suffix is a test on the
    extension. *)
Lemma endswith_lower_extension (path rest : str) :
  forallb rigid (46%N :: rest) = true -> has_dot rest = false ->
  endswith (lower E path) (46%N :: rest) = extension_is path (46%N :: rest).
Proof.
  intros Hr Hd. unfold lower, extension_is.
  rewrite (endswith_lowered path _ _ (lower_from_lowered E path [] lower_sound) Hr).
  rewrite endswith_extension by assumption. now rewrite extension_lower.
Qed.

Lemma read_pdf_result (path : str) (w : world float) :
  (exists text, fst (read_pdf E path w) = Ok text)
  \/ fst (read_pdf E path w) = Raise (LibraryError "pypdf").
Proof.
  unfold read_pdf, bind, emit, library. destruct (PdfReader E path); simpl; eauto.
Qed.

Lemma read_docx_result (path : str) (w : world float) :
  (exists text, fst (read_docx E path w) = Ok text)
  \/ fst (read_docx E path w) = Raise (LibraryError "docx").
Proof.
  unfold read_docx, bind, emit, library. destruct (Document E path); simpl; eauto.
Qed.

(** C9: [load_text] raises [UnsupportedFormat] exactly when the extension
    of the path, letter case ignored, is neither [.pdf] nor [.docx]; a run
    of [main] on such a path ends with that error right after entering
    [load_text]: nothing is parsed, chunked, embedded, stored or printed. *)
Theorem load_text_unsupported (path : str) (w : world float) :
  (fst (load_text E path w) = Raise UnsupportedFormat
   <-> extension_is path (lit ".pdf") = false
       /\ extension_is path (lit ".docx") = false)
  /\ (extension_is path (lit ".pdf") = false ->
      extension_is path (lit ".docx") = false ->
      load_text E path w = (Raise UnsupportedFormat, w)
      /\ main E path w
         = (Raise UnsupportedFormat,
            {| events := events w ++ [Called "load_text"]; table := table w;
               uuids_drawn := uuids_drawn w; clock := clock w |})).
Proof.
  pose proof (endswith_lower_extension path (lit "pdf") eq_refl eq_refl) as Hpdf.
  pose proof (endswith_lower_extension path (lit "docx") eq_refl eq_refl) as Hdocx.
  change (46%N :: lit "pdf") with (lit ".pdf") in Hpdf.
  change (46%N :: lit "docx") with (lit ".docx") in Hdocx.
  assert (G : extension_is path (lit ".pdf") = false ->
              extension_is path (lit ".docx") = false ->
              forall w', load_text E path w' = (Raise UnsupportedFormat, w')).
  { intros H1 H2 w'. unfold load_text. now rewrite Hpdf, Hdocx, H1, H2. }
  split; [split|].
  - intros H. unfold load_text in H. rewrite Hpdf, Hdocx in H.
    destruct (extension_is path (lit ".pdf")).
    + destruct (read_pdf_result path w) as [[text R]|R]; rewrite R in H; discriminate.
    + destruct (extension_is path (lit ".docx")); [|auto].
      destruct (read_docx_result path w) as [[text R]|R]; rewrite R in H; discriminate.
  - intros [H1 H2]. now rewrite G.
  - intros H1 H2. split; [now apply G|].
    unfold main, bind. unfold emit at 1. now rewrite G.
Qed.

End Extractor.

Lemma offline_lower_sound : lower_table_sound offline_env.
Proof.
  intros before c after Hc. simpl.
  destruct (c =? 8490)%N; [split; [discriminate|reflexivity]|].
  destruct (c =? 304)%N; [split; [discriminate|reflexivity]|].
  split; [discriminate|]. simpl. unfold rigid.
  destruct (c <? 128)%N eqn:E; [apply N.ltb_lt in E; lia|reflexivity].
Qed.

Lemma load_text_unsupported_witness :
  load_text offline_env (lit "notes.txt") empty_world
  = (Raise UnsupportedFormat, empty_world)
  /\ main offline_env (lit "notes.txt") empty_world
     = (Raise UnsupportedFormat,
        {| events := [Called "load_text"]; table := [];
           uuids_drawn := 0%N; clock := 0 |}).
Proof.
  apply (proj2 (load_text_unsupported _ offline_env offline_lower_sound
                  (lit "notes.txt") empty_world)); reflexivity.
Defined.

(** * Further properties of the normaliser *)

Lemma collapse_runs_cons (c : char) (s : str) :
  collapse_runs (c :: s)
  = if isspace c then
      match s with
      | [] => [32%N]
      | c' :: _ => if isspace c' then collapse_runs s
                   else 32%N :: collapse_runs s
      end
    else c :: collapse_runs s.
Proof. reflexivity. Qed.

Lemma non_space_cons (c : char) (s : str) :
  non_space (c :: s) = if isspace c then non_space s else c :: non_space s.
Proof. unfold non_space. simpl. now destruct (isspace c). Qed.

Lemma non_space_blank (s : str) : blank s -> non_space s = [].
Proof.
  induction 1 as [|c s Hc _ IH]; [reflexivity|].
  now rewrite non_space_cons, Hc.
Qed.

Lemma non_space_collapse_runs (s : str) :
  non_space (collapse_runs s) = non_space s.
Proof.
  induction s as [|c s IH]; [reflexivity|].
  rewrite collapse_runs_cons, (non_space_cons c s).
  destruct (isspace c) eqn:Hc.
  - destruct s as [|c' s']; [reflexivity|].
    destruct (isspace c') eqn:Hc'; [exact IH|].
    rewrite non_space_cons. exact IH.
  - now rewrite non_space_cons, Hc, IH.
Qed.

Lemma non_space_strip (x : str) : non_space (strip x) = non_space x.
Proof.
  destruct (strip_decomp x) as [pre [post [Hpre [Hpost Hx]]]].
  transitivity (non_space (pre ++ strip x ++ post)); [|now rewrite <- Hx].
  unfold non_space. rewrite !filter_app.
  fold (non_space pre). fold (non_space post).
  now rewrite (non_space_blank pre Hpre), (non_space_blank post Hpost), app_nil_r.
Qed.

Lemma only_ascii_space_collapse_runs (s : str) :
  only_ascii_space (collapse_runs s).
Proof.
  unfold only_ascii_space. induction s as [|c s IH]; [constructor|].
  rewrite collapse_runs_cons. destruct (isspace c) eqn:Hc.
  - destruct s as [|c' s']; [repeat constructor|].
    destruct (isspace c'); [exact IH|constructor; auto].
  - constructor; [congruence|exact IH].
Qed.

Lemma strip_keeps (P : char -> Prop) (x : str) :
  Forall P x -> Forall P (strip x).
Proof.
  intros H. destruct (strip_decomp x) as [pre [post [_ [_ Hx]]]].
  rewrite Hx in H. apply Forall_app in H. destruct H as [_ H].
  apply Forall_app in H. apply H.
Qed.

Lemma collapse_runs_length (s : str) :
  (List.length (collapse_runs s) <= List.length s)%nat.
Proof.
  induction s as [|c s IH]; [simpl; lia|].
  rewrite collapse_runs_cons. destruct (isspace c).
  - destruct s as [|c' s']; [simpl; lia|].
    destruct (isspace c'); cbn [List.length] in *; lia.
  - cbn [List.length]. lia.
Qed.

Lemma normalize_single_spaced (t : str) :
  single_spaced (normalize_whitespace t) = true.
Proof.
  unfold normalize_whitespace. fold space.
  apply join_words_single_spaced, split_all_words.
Qed.

Lemma normalize_only_ascii_space (t : str) :
  only_ascii_space (normalize_whitespace t).
Proof.
  rewrite normalize_collapse. apply strip_keeps, only_ascii_space_collapse_runs.
Qed.

(** X1: normalising keeps every character that is not white space, in
    order; what white space is left is single ASCII spaces; the text never
    grows. *)
Theorem normalize_keeps_content (t : str) :
  non_space (normalize_whitespace t) = non_space t
  /\ only_ascii_space (normalize_whitespace t)
  /\ single_spaced (normalize_whitespace t) = true
  /\ (List.length (normalize_whitespace t) <= List.length t)%nat.
Proof.
  split; [|split; [|split]].
  - now rewrite normalize_collapse, non_space_strip, non_space_collapse_runs.
  - apply normalize_only_ascii_space.
  - apply normalize_single_spaced.
  - rewrite normalize_collapse.
    etransitivity; [apply strip_length|apply collapse_runs_length].
Qed.

Lemma collapse_runs_fixed (s : str) :
  single_spaced s = true -> only_ascii_space s -> collapse_runs s = s.
Proof.
  induction s as [|c s IH]; intros Hs Ho; [reflexivity|].
  inversion Ho as [|? ? Hc Ho']; subst.
  pose proof (single_spaced_tail _ _ Hs) as Hs'.
  rewrite collapse_runs_cons, (IH Hs' Ho'). destruct (isspace c) eqn:E.
  - rewrite (Hc eq_refl) in *. destruct s as [|c' s']; [reflexivity|].
    now rewrite (single_spaced_pair _ _ _ Hs E).
  - reflexivity.
Qed.

(** X2: the texts the normaliser leaves alone are exactly those without
    white space at either end, without two white-space characters in a row
    and with no white space but the ASCII space. *)
Theorem normalize_fixed_points (s : str) :
  normalize_whitespace s = s
  <-> strip s = s /\ single_spaced s = true /\ only_ascii_space s.
Proof.
  split.
  - intros H. pose proof (normalize_only_ascii_space s) as Ho.
    pose proof (normalize_single_spaced s) as Hs.
    rewrite H in Ho, Hs. repeat split; auto.
    apply strip_fixed. rewrite <- H. apply normalize_trimmed.
  - intros [Ht [Hs Ho]]. now rewrite normalize_collapse, collapse_runs_fixed.
Qed.

Lemma normalize_fixed_points_witness :
  normalize_whitespace (lit "two words") = lit "two words".
Proof.
  apply (proj2 (normalize_fixed_points (lit "two words"))).
  split; [reflexivity|]. split; [reflexivity|].
  repeat constructor; intros H; try discriminate H; reflexivity.
Defined.

(** * Further properties of the chunker *)

Lemma single_spaced_firstn (k : nat) (s : str) :
  single_spaced s = true -> single_spaced (firstn k s) = true.
Proof.
  revert k. induction s as [|c s IH]; intros k H; [now destruct k|].
  destruct k as [|k]; [reflexivity|].
  pose proof (IH k (single_spaced_tail _ _ H)) as IH'.
  cbn [firstn]. destruct s as [|c' s']; [now destruct k|].
  destruct k as [|k]; [reflexivity|].
  cbn [firstn] in *.
  change (single_spaced (c :: c' :: firstn k s'))
    with (negb (isspace c && isspace c') && single_spaced (c' :: firstn k s')).
  change (single_spaced (c :: c' :: s'))
    with (negb (isspace c && isspace c') && single_spaced (c' :: s')) in H.
  apply andb_true_iff in H. destruct H as [H _]. now rewrite H, IH'.
Qed.

Lemma piece_firstn_skipn (pre m post : str) :
  m = firstn (List.length m) (skipn (List.length pre) (pre ++ m ++ post)).
Proof.
  rewrite skipn_app, Nat.sub_diag, skipn_all. cbn [skipn app].
  rewrite firstn_app, Nat.sub_diag, firstn_all. cbn [firstn]. now rewrite app_nil_r.
Qed.

Lemma strip_single_spaced (x : str) :
  single_spaced x = true -> single_spaced (strip x) = true.
Proof.
  intros H. destruct (strip_decomp x) as [pre [post [_ [_ Hx]]]].
  rewrite (piece_firstn_skipn pre (strip x) post), <- Hx.
  now apply single_spaced_firstn, single_spaced_skipn.
Qed.

Lemma slice_single_spaced (t : str) (lo hi : Z) :
  single_spaced t = true -> single_spaced (slice t lo hi) = true.
Proof.
  intros H. unfold slice. now apply single_spaced_firstn, single_spaced_skipn.
Qed.

Lemma slice_keeps (P : char -> Prop) (t : str) (lo hi : Z) :
  Forall P t -> Forall P (slice t lo hi).
Proof.
  intros H. destruct (slice_substring t lo hi) as [pre [post Ht]].
  rewrite Ht in H. apply Forall_app in H. destruct H as [_ H].
  apply Forall_app in H. apply H.
Qed.

(** A trimmed window of a normalised text is normalised. *)
Lemma trimmed_slice_normalized (T : str) (lo hi : Z) :
  normalize_whitespace
    (strip (slice (normalize_whitespace T) lo hi))
  = strip (slice (normalize_whitespace T) lo hi).
Proof.
  rewrite normalize_collapse, collapse_runs_fixed.
  - apply strip_fixed, strip_trimmed.
  - apply strip_single_spaced, slice_single_spaced, normalize_single_spaced.
  - apply strip_keeps, slice_keeps, normalize_only_ascii_space.
Qed.

(** X3: every chunk is itself normalised: normalising a chunk again
    changes nothing. *)
Theorem chunks_are_normalized (T : str) (S O : Z) :
  O < S ->
  exists chunks,
    split_fixed_overlap T S O = Ok chunks
    /\ Forall (fun c => normalize_whitespace c = c) chunks.
Proof.
  intros H. destruct (split_fixed_overlap_ok T S O H) as [starts [_ Hs]].
  eexists. split; [exact Hs|].
  apply Forall_forall. intros c Hc. apply filter_In in Hc. destruct Hc as [Hc _].
  apply in_map_iff in Hc. destruct Hc as [st [<- _]].
  apply trimmed_slice_normalized.
Qed.

Lemma chunks_are_normalized_witness :
  exists chunks,
    split_fixed_overlap (lit " one  two three ") 5 2 = Ok chunks
    /\ Forall (fun c => normalize_whitespace c = c) chunks.
Proof. apply chunks_are_normalized. lia. Defined.

Lemma ceil_div_range_length (n step : Z) :
  0 <= n -> 0 < step -> range_length 0 n step = ceil_div n step.
Proof.
  intros Hn Hs. rewrite range_length_pos by assumption. unfold ceil_div.
  destruct (n <=? 0) eqn:E.
  - apply Z.leb_le in E. symmetry. apply Z.div_small. lia.
  - replace (n + step - 1) with (n - 1 + 1 * step) by lia.
    rewrite Z.div_add by lia. reflexivity.
Qed.

(** In a normalised text a window of two or more characters never trims to
    empty. *)
Lemma wide_window_kept (T : str) (S st : Z) :
  2 <= S -> 0 <= st < len (normalize_whitespace T) ->
  strip (window (normalize_whitespace T) S st) <> [].
Proof.
  intros HS Hst. set (t := normalize_whitespace T) in *.
  pose proof (normalize_trimmed T) as [_ Hr]. fold t in Hr.
  pose proof (normalize_single_spaced T) as Hsp. fold t in Hsp.
  unfold window.
  assert (Ht : t = firstn (Z.to_nat st) t ++ skipn (Z.to_nat st) t)
    by (symmetry; apply firstn_skipn).
  assert (Hlen : (0 < List.length (skipn (Z.to_nat st) t))%nat)
    by (rewrite length_skipn; unfold len in Hst; lia).
  pose proof (single_spaced_skipn (Z.to_nat st) t Hsp) as Hsx.
  destruct (skipn (Z.to_nat st) t) as [|c x] eqn:Ex; [simpl in Hlen; lia|].
  assert (Hrx : rstrip (c :: x) = c :: x).
  { apply (rstrip_suffix (firstn (Z.to_nat st) t)); [now rewrite <- Ht|discriminate]. }
  replace (Z.to_nat S) with (Datatypes.S (Datatypes.S (Z.to_nat S - 2))) by lia.
  destruct (isspace c) eqn:Hc.
  - destruct x as [|d x'].
    + apply (rstrip_last [c] [] c) in Hrx. congruence.
    + pose proof (single_spaced_pair _ _ _ Hsx Hc) as Hd.
      cbn [firstn]. intros E. apply strip_nil_iff in E.
      inversion E as [|? ? _ E']; subst. inversion E'; subst. congruence.
  - cbn [firstn]. now apply strip_solid_head.
Qed.

(** X4: the number of chunks is at most [ceil(L / step)], where [L] is the
    length of the normalised text, and exactly that when the chunk size is
    two or more: no window then trims to empty. *)
Theorem chunk_count (T : str) (S O : Z) :
  O < S ->
  exists chunks,
    split_fixed_overlap T S O = Ok chunks
    /\ Z.of_nat (List.length chunks)
       <= ceil_div (len (normalize_whitespace T)) (S - O)
    /\ (2 <= S ->
        Z.of_nat (List.length chunks)
        = ceil_div (len (normalize_whitespace T)) (S - O)).
Proof.
  intros H. destruct (split_fixed_overlap_ok T S O H) as [starts [Hr Hs]].
  assert (Hstep : 0 < S - O) by lia.
  assert (Hcount : Z.of_nat (List.length starts)
                   = ceil_div (len (normalize_whitespace T)) (S - O)).
  { pose proof Hr as Hr'. rewrite range_pos in Hr' by assumption.
    injection Hr' as <-. unfold multiples. rewrite length_map, length_seq.
    rewrite Z2Nat.id by now apply range_length_nonneg.
    apply ceil_div_range_length; [unfold len; lia|assumption]. }
  eexists. split; [exact Hs|]. split.
  - rewrite <- Hcount. apply inj_le.
    etransitivity; [apply filter_length_le|]. now rewrite length_map.
  - intros HS. rewrite <- Hcount. f_equal.
    rewrite forallb_filter_id; [now rewrite length_map|].
    apply forallb_forall. intros c Hc. apply in_map_iff in Hc.
    destruct Hc as [st [<- Hin]]. apply truthy_true.
    apply (in_range _ _ _ st Hstep Hr) in Hin. destruct Hin as [k [Hk [-> Hlt]]].
    rewrite slice_window by nia. apply wide_window_kept; [assumption|nia].
Qed.

Lemma chunk_count_witness :
  exists chunks,
    split_fixed_overlap (lit "abcdefghij") 4 1 = Ok chunks
    /\ Z.of_nat (List.length chunks)
       <= ceil_div (len (normalize_whitespace (lit "abcdefghij"))) (4 - 1)
    /\ (2 <= 4 ->
        Z.of_nat (List.length chunks)
        = ceil_div (len (normalize_whitespace (lit "abcdefghij"))) (4 - 1)).
Proof. apply chunk_count. lia. Defined.

(** X5: the chunker sees a text only through its normal form: texts with
    the same normal form, differing in white-space layout alone, give the
    same outcome, error included, and so does a text normalised
    beforehand. *)
Theorem chunks_ignore_layout (T1 T2 : str) (S O : Z) :
  (normalize_whitespace T1 = normalize_whitespace T2 ->
   split_fixed_overlap T1 S O = split_fixed_overlap T2 S O)
  /\ split_fixed_overlap (normalize_whitespace T1) S O
     = split_fixed_overlap T1 S O.
Proof.
  assert (G : forall A B, normalize_whitespace A = normalize_whitespace B ->
                          split_fixed_overlap A S O = split_fixed_overlap B S O).
  { intros A B H. unfold split_fixed_overlap. now rewrite H. }
  split; [apply G|]. apply G, normalize_idempotent.
Qed.

Lemma chunks_ignore_layout_witness :
  split_fixed_overlap [9; 97; 98; 10; 8232; 99; 160; 100; 101; 32]%N 3 1
  = split_fixed_overlap (lit "ab c de") 3 1.
Proof.
  apply (proj1 (chunks_ignore_layout _ (lit "ab c de") 3 1)). reflexivity.
Defined.



(** X7: with [0 <= O < S], a text whose normal form is not empty and no
    longer than the step [S - O] gives exactly one chunk, the normalised
    text itself. *)
Theorem short_text_single_chunk (T : str) (S O : Z) :
  0 <= O < S ->
  normalize_whitespace T <> [] ->
  len (normalize_whitespace T) <= S - O ->
  split_fixed_overlap T S O = Ok [normalize_whitespace T].
Proof.
  intros H Hne Hlen. destruct (split_fixed_overlap_ok T S O) as [starts [Hr Hs]];
    [lia|].
  set (t := normalize_whitespace T) in *.
  assert (Hpos : 0 < len t).
  { unfold len. destruct t; [congruence|simpl; lia]. }
  rewrite range_pos in Hr by lia. injection Hr as <-.
  rewrite range_length_pos in Hs by lia.
  destruct (len t <=? 0) eqn:E; [apply Z.leb_le in E; lia|].
  rewrite Z.div_small in Hs by lia.
  change (multiples (S - O) (Z.to_nat (0 + 1))) with [0 + 0 * (S - O)] in Hs.
  cbn [map filter] in Hs. rewrite slice_window in Hs by lia.
  unfold window in Hs. change (Z.to_nat (0 + 0 * (S - O))) with 0%nat in Hs.
  cbn [skipn] in Hs. rewrite firstn_all2 in Hs by (unfold len in Hlen; lia).
  rewrite strip_fixed in Hs by apply normalize_trimmed.
  apply truthy_true in Hne. now rewrite Hne in Hs.
Qed.

Lemma short_text_single_chunk_witness :
  split_fixed_overlap (lit "  a short   text ") CHUNK_SIZE CHUNK_OVERLAP
  = Ok [normalize_whitespace (lit "  a short   text ")].
Proof.
  apply short_text_single_chunk;
    [unfold CHUNK_SIZE, CHUNK_OVERLAP; lia|discriminate|vm_compute; discriminate].
Defined.

(** * Further properties of the pipeline *)

Section Stages.

Variable float : Type.
Variable E : env float.

Lemma with_events_nil (w : world float) : with_events w [] = w.
Proof. destruct w. unfold with_events. simpl. now rewrite app_nil_r. Qed.

Lemma with_events_app (w : world float) (a b : list (event float)) :
  with_events (with_events w a) b = with_events w (a ++ b).
Proof. unfold with_events. simpl. now rewrite app_assoc. Qed.

Lemma bind_ok {A B : Type} (m : M float A) (k : A -> M float B)
    (w w' : world float) (a : A) :
  m w = (Ok a, w') -> bind m k w = k a w'.
Proof. intros H. unfold bind. now rewrite H. Qed.

Lemma bind_raise {A B : Type} (m : M float A) (k : A -> M float B)
    (w w' : world float) (e : exn) :
  m w = (Raise e, w') -> bind m k w = (Raise e, w').
Proof. intros H. unfold bind. now rewrite H. Qed.

(** ** The embedder *)

(** One turn of the loop of [embed_texts]. *)
Lemma embed_one (t : str) (w : world float) :
  bind (emit (EmbedRequest t))
       (fun _ => library "google.generativeai" (embed_content E t)) w
  = (match embed_content E t with
     | Some v => Ok v
     | None => Raise (LibraryError "google.generativeai")
     end, with_events w [EmbedRequest t]).
Proof. unfold bind, emit, library. now destruct (embed_content E t). Qed.

Lemma embed_loop_ok (texts : list str) (vs : list (list float))
    (w : world float) :
  map (embed_content E) texts = map Some vs ->
  mapM (fun t => bind (emit (EmbedRequest t))
                      (fun _ => library "google.generativeai"
                                        (embed_content E t))) texts w
  = (Ok vs, with_events w (map EmbedRequest texts)).
Proof.
  revert vs w. induction texts as [|t texts IH]; intros vs w H.
  - destruct vs; [|discriminate]. simpl. now rewrite with_events_nil.
  - destruct vs as [|v vs]; [discriminate|]. injection H as Hv Hvs.
    cbn [mapM]. rewrite (bind_ok _ _ w (with_events w [EmbedRequest t]) v)
      by (now rewrite embed_one, Hv).
    rewrite (bind_ok _ _ _ _ vs (IH vs _ Hvs)).
    unfold ret. now rewrite with_events_app.
Qed.

Lemma embed_loop_fails (pre : list str) (t : str) (post : list str)
    (vs : list (list float)) (w : world float) :
  map (embed_content E) pre = map Some vs ->
  embed_content E t = None ->
  mapM (fun t => bind (emit (EmbedRequest t))
                      (fun _ => library "google.generativeai"
                                        (embed_content E t)))
       (pre ++ t :: post) w
  = (Raise (LibraryError "google.generativeai"),
     with_events w (map EmbedRequest (pre ++ [t]))).
Proof.
  revert vs w. induction pre as [|p pre IH]; intros vs w H Ht.
  - cbn [app mapM map]. apply bind_raise. now rewrite embed_one, Ht.
  - destruct vs as [|v vs]; [discriminate|]. injection H as Hv Hvs.
    cbn [app mapM map].
    rewrite (bind_ok _ _ w (with_events w [EmbedRequest p]) v)
      by (now rewrite embed_one, Hv).
    rewrite (bind_raise _ _ _ _ _ (IH vs _ Hvs Ht)).
    now rewrite with_events_app.
Qed.

(** Either every text is answered, or there is a first one that is not. *)
Lemma answered_or_first_failure (texts : list str) :
  (exists vs, map (embed_content E) texts = map Some vs)
  \/ (exists pre t post vs,
        texts = pre ++ t :: post
        /\ map (embed_content E) pre = map Some vs
        /\ embed_content E t = None).
Proof.
  induction texts as [|t texts IH].
  - left. now exists [].
  - destruct (embed_content E t) as [v|] eqn:Ht.
    + destruct IH as [[vs H]|[pre [u [post [vs [H1 [H2 H3]]]]]]].
      * left. exists (v :: vs). simpl. now rewrite Ht, H.
      * right. exists (t :: pre), u, post, (v :: vs).
        simpl. now rewrite H1, Ht, H2.
    + right. exists [], t, texts, []. auto.
Qed.

Lemma key_set_truthy :
  key_set E -> truthy (or_empty (GEMINI_API_KEY E)) = true.
Proof.
  intros [k [-> Hk]]. simpl. destruct k; [congruence|reflexivity].
Qed.

Lemma key_unset_falsy :
  ~ key_set E -> truthy (or_empty (GEMINI_API_KEY E)) = false.
Proof.
  intros H. destruct (GEMINI_API_KEY E) as [k|] eqn:Ek; [|reflexivity].
  destruct k as [|c k]; [reflexivity|].
  exfalso. apply H. exists (c :: k). split; [exact Ek|discriminate].
Qed.


(** X8: [embed_texts] raises [MissingCredential] exactly when no API key
    is set (absent or empty), whatever the texts, and then sends no
    request: the world is left as it was. *)
Theorem embed_texts_missing_credential (texts : list str) (w : world float) :
  (fst (embed_texts E texts w) = Raise MissingCredential <-> ~ key_set E)
  /\ (~ key_set E -> embed_texts E texts w = (Raise MissingCredential, w)).
Proof.
  assert (G : ~ key_set E -> embed_texts E texts w = (Raise MissingCredential, w)).
  { intros H. unfold embed_texts. now rewrite key_unset_falsy. }
  split; [split|exact G].
  - intros H Hk. unfold embed_texts in H. rewrite key_set_truthy in H by assumption.
    cbn [negb] in H.
    destruct (answered_or_first_failure texts)
      as [[vs Hv]|[pre [t [post [vs [-> [Hv Ht]]]]]]].
    + rewrite (embed_loop_ok _ _ _ Hv) in H. discriminate.
    + rewrite (embed_loop_fails _ _ _ _ _ Hv Ht) in H. discriminate.
  - intros H. now rewrite G.
Qed.

(** X9: with a key set and every text answered by the service,
    [embed_texts] returns the answers in the order of the texts, one per
    text, after one request per text in that order. *)
Theorem embed_texts_all_answered (texts : list str) (vs : list (list float))
    (w : world float) :
  key_set E ->
  map (embed_content E) texts = map Some vs ->
  embed_texts E texts w = (Ok vs, with_events w (map EmbedRequest texts))
  /\ List.length vs = List.length texts.
Proof.
  intros Hk Hv. split.
  - unfold embed_texts. rewrite key_set_truthy by assumption. cbn [negb].
    now apply embed_loop_ok.
  - apply (f_equal (@List.length _)) in Hv. now rewrite !length_map in Hv.
Qed.

(** X10: with a key set, the first text the service fails on aborts the
    call with the service's error: the texts before it and that text were
    requested, in order, and no text after it is. *)
Theorem embed_texts_first_failure (pre : list str) (t : str) (post : list str)
    (vs : list (list float)) (w : world float) :
  key_set E ->
  map (embed_content E) pre = map Some vs ->
  embed_content E t = None ->
  embed_texts E (pre ++ t :: post) w
  = (Raise (LibraryError "google.generativeai"),
     with_events w (map EmbedRequest (pre ++ [t]))).
Proof.
  intros Hk Hv Ht. unfold embed_texts. rewrite key_set_truthy by assumption.
  cbn [negb]. now apply (embed_loop_fails pre t post vs).
Qed.


End Stages.

Lemma demo_key_set : key_set demo_env.
Proof. exists (lit "key"). split; [reflexivity|discriminate]. Qed.

Lemma offline_key_unset : ~ key_set offline_env.
Proof. intros [k [H _]]. discriminate H. Qed.

Lemma embed_texts_missing_credential_witness :
  embed_texts offline_env [lit "some chunk"] empty_world
  = (Raise MissingCredential, empty_world).
Proof.
  apply (proj2 (embed_texts_missing_credential _ offline_env
                  [lit "some chunk"] empty_world)).
  exact offline_key_unset.
Defined.

Lemma embed_texts_all_answered_witness :
  embed_texts demo_env [lit "ab"; lit "cde"] demo_world
  = (Ok [[2]; [3]],
     with_events demo_world (map EmbedRequest [lit "ab"; lit "cde"]))
  /\ List.length [[2]; [3]] = List.length [lit "ab"; lit "cde"].
Proof.
  apply embed_texts_all_answered; [exact demo_key_set|reflexivity].
Defined.

Lemma embed_texts_first_failure_witness :
  embed_texts flaky_env ([lit "ab"] ++ lit "cde" :: [lit "f"]) demo_world
  = (Raise (LibraryError "google.generativeai"),
     with_events demo_world (map EmbedRequest ([lit "ab"] ++ [lit "cde"]))).
Proof.
  apply (embed_texts_first_failure _ flaky_env [lit "ab"] (lit "cde") [lit "f"]
           [[2]]); [|reflexivity|reflexivity].
  exists (lit "key"). split; [reflexivity|discriminate].
Defined.

Section Rows.

Variable float : Type.
Variable E : env float.

(** ** The persister *)









End Rows.



Section Run.

Variable float : Type.
Variable E : env float.

(** ** The run of [main], stage by stage *)

Lemma main_stages (path : str) (w : world float) :
  main E path w
  = match load_text E path (with_events w [Called "load_text"]) with
    | (Raise e, w1) => (Raise e, w1)
    | (Ok text, w1) =>
        if negb (truthy text)
        then (Ok tt, with_events w1 [Printed NothingToIndex])
        else
          match split_fixed_overlap text CHUNK_SIZE CHUNK_OVERLAP with
          | Raise e => (Raise e, with_events w1 [Called "split_fixed_overlap"])
          | Ok chunks =>
              match
                embed_texts E chunks
                  (with_events w1
                     [Called "split_fixed_overlap";
                      Printed (Extracted (len text)
                                 (Z.of_nat (List.length chunks)));
                      Called "embed_texts"])
              with
              | (Raise e, w3) => (Raise e, w3)
              | (Ok embeddings, w3) =>
                  match
                    insert_chunks E (basename path) chunks embeddings
                      (with_events w3
                         [Printed
                            (Created (Z.of_nat (List.length embeddings))
                               match embeddings with
                               | [] => 0
                               | v :: _ => Z.of_nat (List.length v)
                               end);
                          Called "insert_chunks"])
                  with
                  | (Raise e, w5) => (Raise e, w5)
                  | (Ok _, w5) => (Ok tt, with_events w5 [Printed Inserted])
                  end
              end
          end
    end.
Proof.
  unfold main. unfold bind at 1. unfold emit at 1.
  change {| events := events w ++ [Called "load_text"]; table := table w;
            uuids_drawn := uuids_drawn w; clock := clock w |}
    with (with_events w [Called "load_text"]).
  unfold bind at 1.
  destruct (load_text E path (with_events w [Called "load_text"])) as [[text|e] w1];
    [|reflexivity].
  destruct (truthy text); cbn [negb]; [|reflexivity].
  unfold bind at 1. unfold emit at 1. unfold bind at 1. unfold lift at 1.
  destruct (split_fixed_overlap text CHUNK_SIZE CHUNK_OVERLAP) as [chunks|e];
    [|reflexivity].
  unfold bind at 1. unfold emit at 1. unfold bind at 1. unfold emit at 1.
  unfold bind at 1.
  match goal with
  | |- context [embed_texts E chunks ?w2] =>
      replace w2 with
        (with_events w1
           [Called "split_fixed_overlap";
            Printed (Extracted (len text) (Z.of_nat (List.length chunks)));
            Called "embed_texts"])
        by (unfold with_events; cbn [events table uuids_drawn clock];
            now rewrite <- !app_assoc)
  end.
  destruct (embed_texts E chunks _) as [[embeddings|e] w3]; [|reflexivity].
  unfold bind at 1. unfold emit at 1. unfold bind at 1. unfold emit at 1.
  unfold bind at 1.
  match goal with
  | |- context [insert_chunks E _ chunks embeddings ?w4] =>
      match goal with
      | |- context [with_events w3 ?es] =>
          replace w4 with (with_events w3 es)
            by (unfold with_events; cbn [events table uuids_drawn clock];
                now rewrite <- !app_assoc)
      end
  end.
  destruct (insert_chunks E (basename path) chunks embeddings _) as [[[]|e] w5];
    reflexivity.
Qed.

Lemma strip_idempotent (x : str) : strip (strip x) = strip x.
Proof. apply strip_fixed, strip_trimmed. Qed.

(** What [load_text] can do, in all. *)
Lemma load_text_cases (path : str) (w : world float) :
  load_text E path w = (Raise UnsupportedFormat, w)
  \/ (exists origin,
        load_text E path w
        = (Raise (LibraryError origin), with_events w [Parsed path]))
  \/ (exists text,
        load_text E path w = (Ok text, with_events w [Parsed path])
        /\ strip text = text).
Proof.
  unfold load_text. destruct (endswith (lower E path) (lit ".pdf")).
  - right. unfold read_pdf, bind, emit, library.
    destruct (PdfReader E path) as [pages|].
    + right. eexists. split; [reflexivity|apply strip_idempotent].
    + left. eexists. reflexivity.
  - destruct (endswith (lower E path) (lit ".docx")); [|now left].
    right. unfold read_docx, bind, emit, library.
    destruct (Document E path) as [paragraphs|].
    + right. eexists. split; [reflexivity|apply strip_idempotent].
    + left. eexists. reflexivity.
Qed.


(** With a positive size, a text that is not blank gives a first chunk. *)
Lemma first_chunk_kept (T : str) (S O : Z) :
  O < S -> 0 < S -> normalize_whitespace T <> [] ->
  exists c cs, split_fixed_overlap T S O = Ok (c :: cs).
Proof.
  intros H HS Hne. destruct (split_fixed_overlap_ok T S O H) as [starts [Hr Hs]].
  assert (Hstep : 0 < S - O) by lia.
  destruct (normalize_whitespace T) as [|c0 r] eqn:Et; [congruence|].
  assert (Hc : isspace c0 = false).
  { apply (trimmed_head c0 r). rewrite <- Et. apply normalize_trimmed. }
  rewrite range_pos in Hr by assumption. injection Hr as <-.
  rewrite range_length_pos in Hs by assumption.
  assert (El : (len (c0 :: r) <=? 0) = false)
    by (apply Z.leb_gt; unfold len; cbn [List.length]; lia).
  rewrite El in Hs.
  assert (Hq : 0 <= (len (c0 :: r) - 1) / (S - O))
    by (apply Z.div_pos; unfold len; cbn [List.length]; lia).
  replace (Z.to_nat ((len (c0 :: r) - 1) / (S - O) + 1))
    with (Datatypes.S (Z.to_nat ((len (c0 :: r) - 1) / (S - O)))) in Hs by lia.
  assert (Hk : truthy (strip (slice (c0 :: r) 0 (0 + S))) = true).
  { rewrite slice_window, window_zero_cons by lia.
    now apply truthy_true, strip_solid_head. }
  unfold multiples in Hs. cbn [seq map filter] in Hs.
  change (0 + Z.of_nat 0 * (S - O)) with 0 in Hs.
  rewrite Hk in Hs. eauto.
Qed.

Lemma default_parameters : CHUNK_OVERLAP < CHUNK_SIZE /\ 0 < CHUNK_SIZE.
Proof. split; reflexivity. Qed.










Lemma join_blank (sep : str) (parts : list str) :
  blank sep -> Forall blank parts -> blank (join sep parts).
Proof.
  intros Hsep. induction 1 as [|p ps Hp Hps IH]; [constructor|].
  destruct ps as [|q ps]; [now rewrite join_one|].
  rewrite join_more. apply Forall_app. split; [exact Hp|].
  apply Forall_app. split; [exact Hsep|exact IH].
Qed.

Lemma newline_blank : blank (lit (String (ascii_of_nat 10) EmptyString)).
Proof. repeat constructor. Qed.

Lemma read_pdf_blank (path : str) (pages : list (option str)) (w : world float) :
  PdfReader E path = Some pages ->
  Forall (fun p => blank (or_empty p)) pages ->
  read_pdf E path w = (Ok [], with_events w [Parsed path]).
Proof.
  intros Hp Hb. unfold read_pdf, bind, emit, library. rewrite Hp.
  unfold ret, with_events. cbn [events table uuids_drawn clock]. do 2 f_equal.
  apply strip_nil_iff, join_blank; [apply newline_blank|].
  now apply Forall_map.
Qed.

Lemma read_docx_blank (path : str) (paragraphs : list str) (w : world float) :
  Document E path = Some paragraphs ->
  Forall blank paragraphs ->
  read_docx E path w = (Ok [], with_events w [Parsed path]).
Proof.
  intros Hp Hb. unfold read_docx, bind, emit, library. rewrite Hp.
  unfold ret, with_events. cbn [events table uuids_drawn clock]. do 2 f_equal.
  apply strip_nil_iff, join_blank; [apply newline_blank|assumption].
Qed.

Hypothesis lower_sound : lower_table_sound E.

Lemma load_text_pdf (path : str) (w : world float) :
  extension_is path (lit ".pdf") = true ->
  load_text E path w = read_pdf E path w.
Proof.
  intros H. unfold load_text.
  change (lit ".pdf") with (46%N :: lit "pdf") in *.
  now rewrite (endswith_lower_extension float E lower_sound path (lit "pdf")
                 eq_refl eq_refl), H.
Qed.

Lemma load_text_docx (path : str) (w : world float) :
  extension_is path (lit ".docx") = true ->
  load_text E path w = read_docx E path w.
Proof.
  intros H. unfold load_text.
  change (lit ".pdf") with (46%N :: lit "pdf").
  change (lit ".docx") with (46%N :: lit "docx") in *.
  rewrite (endswith_lower_extension float E lower_sound path (lit "pdf")
             eq_refl eq_refl).
  rewrite (endswith_lower_extension float E lower_sound path (lit "docx")
             eq_refl eq_refl), H.
  unfold extension_is in *. apply str_eqb_eq in H. rewrite H. reflexivity.
Qed.

(** X16: a path whose extension is [.pdf] in any letter case goes to the
    PDF parser, and one whose extension is [.docx] to the DOCX parser. *)
Theorem load_text_dispatch (path : str) (w : world float) :
  (extension_is path (lit ".pdf") = true ->
   load_text E path w = read_pdf E path w)
  /\ (extension_is path (lit ".docx") = true ->
      load_text E path w = read_docx E path w).
Proof. split; [apply load_text_pdf|apply load_text_docx]. Qed.

(** X17: a PDF whose pages give no text but white space, or a DOCX whose
    paragraphs are all blank, is not indexed: [main] parses the file,
    reports that there is nothing to index and ends normally, with no
    request to the embedding service and no database connection. *)
Theorem main_nothing_to_index (path : str) (w : world float) :
  (extension_is path (lit ".pdf") = true
   /\ exists pages, PdfReader E path = Some pages
                    /\ Forall (fun p => blank (or_empty p)) pages)
  \/ (extension_is path (lit ".docx") = true
      /\ exists paragraphs, Document E path = Some paragraphs
                            /\ Forall blank paragraphs) ->
  main E path w
  = (Ok tt,
     with_events w [Called "load_text"; Parsed path; Printed NothingToIndex]).
Proof.
  intros H. rewrite main_stages.
  assert (Hl : load_text E path (with_events w [Called "load_text"])
               = (Ok [], with_events (with_events w [Called "load_text"])
                           [Parsed path])).
  { destruct H as [[Hx [pages [Hp Hb]]]|[Hx [paragraphs [Hp Hb]]]].
    - rewrite load_text_pdf by assumption. now apply (read_pdf_blank path pages).
    - rewrite load_text_docx by assumption.
      now apply (read_docx_blank path paragraphs). }
  rewrite Hl. cbn [truthy negb]. now rewrite !with_events_app.
Qed.

End Run.

Section Indexing.

Variable float : Type.
Variable E : env float.

(** X18: whatever [load_text] returns is trimmed, and the only trace of
    the extraction is that the file was parsed; a returned text that is not
    empty always gives at least one chunk under the default parameters, so
    [main] never calls the embedder with nothing to embed. *)
Theorem extracted_text_gives_chunks (path text : str) (w w' : world float) :
  load_text E path w = (Ok text, w') ->
  strip text = text
  /\ w' = with_events w [Parsed path]
  /\ (text <> [] ->
      exists c cs,
        split_fixed_overlap text CHUNK_SIZE CHUNK_OVERLAP = Ok (c :: cs)).
Proof.
  intros H.
  destruct (load_text_cases float E path w) as [H'|[[origin H']|[t [H' Ht]]]];
    rewrite H' in H; try discriminate H.
  injection H as <- <-. split; [exact Ht|]. split; [reflexivity|].
  intros Hne. destruct default_parameters as [Hlt Hpos].
  apply first_chunk_kept; try assumption.
  intros Hn. apply normalize_nil_iff in Hn.
  destruct t as [|c0 r]; [congruence|].
  assert (Hc : isspace c0 = false).
  { apply (trimmed_head c0 r). rewrite <- Ht. apply strip_trimmed. }
  inversion Hn; congruence.
Qed.


End Indexing.

Lemma demo_lower_sound : lower_table_sound demo_env.
Proof.
  intros before c after Hc. simpl. split; [discriminate|].
  unfold rigid. destruct (c <? 128)%N eqn:Ec; [apply N.ltb_lt in Ec; lia|reflexivity].
Qed.


Lemma load_text_dispatch_witness :
  load_text demo_env (lit "Report.PDF") demo_world
  = read_pdf demo_env (lit "Report.PDF") demo_world
  /\ load_text demo_env (lit "notes.Docx") demo_world
     = read_docx demo_env (lit "notes.Docx") demo_world.
Proof.
  split.
  - apply (proj1 (load_text_dispatch _ demo_env demo_lower_sound
                    (lit "Report.PDF") demo_world)). reflexivity.
  - apply (proj2 (load_text_dispatch _ demo_env demo_lower_sound
                    (lit "notes.Docx") demo_world)). reflexivity.
Defined.

Lemma main_nothing_to_index_witness :
  main scanned_env (lit "scan.pdf") demo_world
  = (Ok tt,
     with_events demo_world
       [Called "load_text"; Parsed (lit "scan.pdf"); Printed NothingToIndex]).
Proof.
  apply main_nothing_to_index; [exact demo_lower_sound|].
  left. split; [reflexivity|].
  exists [None; Some (lit "  "); Some []]. split; [reflexivity|].
  repeat constructor.
Defined.

Lemma extracted_text_gives_chunks_witness :
  strip (lit "first  page " ++ [10; 10]%N ++ lit "second")
  = lit "first  page " ++ [10; 10]%N ++ lit "second"
  /\ with_events demo_world [Parsed (lit "Report.PDF")]
     = with_events demo_world [Parsed (lit "Report.PDF")]
  /\ (lit "first  page " ++ [10; 10]%N ++ lit "second" <> [] ->
      exists c cs,
        split_fixed_overlap (lit "first  page " ++ [10; 10]%N ++ lit "second")
          CHUNK_SIZE CHUNK_OVERLAP = Ok (c :: cs)).
Proof.
  apply (extracted_text_gives_chunks _ demo_env (lit "Report.PDF")
           (lit "first  page " ++ [10; 10]%N ++ lit "second") demo_world).
  reflexivity.
Defined.

